(** * NRTidalv2 tidal corrections ([ripple/waveforms/X_NRTidalv2.py])

    A shallow embedding of the NRTidalv2 waveform code and the proofs of
    its specification.

    Number model.  The source computes with JAX floating-point arrays.
    Floats are idealised here as real numbers ([R]) and complex floats as
    pairs of reals: rounding, overflow, NaN and Inf are outside the model.
    Division is [Rdiv]; where a statement would go through a division by
    zero in the source, the theorem says which quantities are non-zero.
    One-dimensional arrays are lists; an operation between two arrays
    follows the broadcasting rule of the array library and fails on
    incompatible lengths. *)

From Stdlib Require Import String Reals Lra Lia Psatz Bool Arith List Sorted.
Import ListNotations.

Local Open Scope R_scope.

(* ================================================================== *)
(** ** Complex numbers *)

Module Cplx.

Record complex : Type := mkC { Re : R; Im : R }.

Definition C0 : complex := mkC 0 0.
Definition C1 : complex := mkC 1 0.
(** The literal [1j]. *)
Definition Ci : complex := mkC 0 1.

(** A real operand promoted to complex. *)
Definition RtoC (r : R) : complex := mkC r 0.

Definition Cadd (a b : complex) : complex := mkC (Re a + Re b) (Im a + Im b).
Definition Cneg (a : complex) : complex := mkC (- Re a) (- Im a).
Definition Cmul (a b : complex) : complex :=
  mkC (Re a * Re b - Im a * Im b) (Re a * Im b + Im a * Re b).
(** Complex divided by a real ([h0_bbh / A_bbh]). *)
Definition Cdivr (a : complex) (r : R) : complex := mkC (Re a / r) (Im a / r).
(** [jnp.abs] on a complex value. *)
Definition Cabs (a : complex) : R := sqrt (Re a * Re a + Im a * Im a).
(** [jnp.exp] on a complex value. *)
Definition Cexp (a : complex) : complex :=
  mkC (exp (Re a) * cos (Im a)) (exp (Re a) * sin (Im a)).

End Cplx.
Import Cplx.

(* ================================================================== *)
(** ** Arrays *)

Module Arr.

(** [jnp.zeros_like] and [jnp.ones_like]: same shape, constant content. *)
Definition zeros_like {A : Type} (f : list A) : list R := map (fun _ => 0) f.
Definition ones_like {A : Type} (f : list A) : list R := map (fun _ => 1) f.

(** Element-wise combination of two arrays of the same length. *)
Fixpoint map2 {A B D : Type} (op : A -> B -> D) (xs : list A) (ys : list B)
  : list D :=
  match xs, ys with
  | x :: xs', y :: ys' => op x y :: map2 op xs' ys'
  | _, _ => []
  end.

(** A binary operation between two one-dimensional arrays.  An array of
    length one is stretched along the other operand; otherwise the lengths
    must agree, and the operation raises when they do not ([None]). *)
Definition bcast2 {A B D : Type} (op : A -> B -> D) (xs : list A) (ys : list B)
  : option (list D) :=
  match xs, ys with
  | [x], _ => Some (map (op x) ys)
  | _, [y] => Some (map (fun x => op x y) xs)
  | _, _ =>
      if Nat.eqb (length xs) (length ys) then Some (map2 op xs ys) else None
  end.

Definition bind {A B : Type} (m : option A) (k : A -> option B) : option B :=
  match m with
  | Some a => k a
  | None => None
  end.

End Arr.
Import Arr.

Notation "x <- m ;; k" := (bind m (fun x => k))
  (at level 61, m at next level, right associativity).

(* ================================================================== *)
(** ** Scalar primitives *)

(** [x ** y] for a non-integral float exponent [y].  For a positive base
    this is [exp (y * ln x)] and for a zero base with a positive exponent
    it is 0.  A negative base (NaN in the source) and a zero base with a
    negative exponent (Inf) are outside the number model; the value 0
    stands there.  Powers with an integral exponent ([** 2.0], [** 5.0],
    [** 3], ...) are written with the integer power [x ^ n]. *)
Definition fpow (x y : R) : R :=
  if Rlt_dec 0 x then Rpower x y else 0.

(** The comparison [x <= y] as a boolean. *)
Definition Rleb (x y : R) : bool := if Rle_dec x y then true else false.

(** [jnp.heaviside x h0]: 0 below zero, [h0] at zero, 1 above. *)
Definition heaviside (x h0 : R) : R :=
  if Rlt_dec x 0 then 0 else if Rlt_dec 0 x then 1 else h0.

(* ================================================================== *)
(** ** Parameter arrays *)

(** The intrinsic parameter array, unpacked in the source as
    [m1, m2, chi1, chi2, lambda1, lambda2 = theta]. *)
Definition Theta : Type := (R * R * R * R * R * R)%type.

(** The extrinsic parameter array [params[6:]]: distance, coalescence time
    and coalescence phase. *)
Definition ThetaExt : Type := (R * R * R)%type.

(** [theta_extrinsic[0]]. *)
Definition ext0 (te : ThetaExt) : R := let '(dL, _, _) := te in dL.

(** The parameter array of [gen_NRTidalv2], by index:
    [Mchirp, eta, chi1, chi2, lambda1, lambda2, D, tc, phic]. *)
Record Params : Type := mkParams {
  par_Mchirp : R;  par_eta : R;
  par_chi1 : R;    par_chi2 : R;
  par_lambda1 : R; par_lambda2 : R;
  par_D : R;       par_tc : R;  par_phic : R
}.

(** The parameter array of [gen_NRTidalv2_hphc]: [params[:-1]] is the array
    above and [params[-1]] the inclination. *)
Record ParamsHphc : Type := mkParamsHphc {
  par_base : Params;
  par_inclination : R
}.

(** Exchange of the body labels. *)
Definition swap_bodies (theta : Theta) : Theta :=
  let '(m1, m2, chi1, chi2, lambda1, lambda2) := theta in
  (m2, m1, chi2, chi1, lambda2, lambda1).

(* ================================================================== *)
(** ** Reference values *)

(** Values of the imported constants in SI units (the solar mass in
    seconds, the metres in a megaparsec, the speed of light), at which the
    theorems are instantiated at the end of the file.  The theorems
    themselves hold for every value of the constants that meets their
    hypotheses. *)
Definition gt_SI : R := 4.925491e-6.
Definition m_per_Mpc_SI : R := 3.085677581491367e22.
Definition C_SI : R := 299792458.

(** Stand-ins for the two collaborators, for the same instances: a binary
    of 1.4 and 1.35 solar masses and a baseline strain equal to 1 at every
    sample. *)
Definition Mc_eta_to_ms_stub (_ : R * R) : R * R := (1.4, 1.35).
Definition gen_IMRPhenomD_stub (f : list R) (_ : list R) (_ : R)
  : list complex := map (fun _ => C1) f.

(* ================================================================== *)
(** ** The waveform code *)

Section NRTidalv2.

(** Constants imported from [ripple.constants]: the solar mass in seconds
    [gt], the number of metres in a megaparsec [m_per_Mpc] and the speed of
    light [C].  Their values are kept abstract. *)
Variables gt m_per_Mpc C : R.

(** Modelled from the spec: the constant [PI], imported from
    [ripple.constants] as well, is the number pi of the specification's
    formulas. *)
Local Abbreviation PI := Rtrigo1.PI (only parsing).

(** Collaborators: the conversion from chirp mass and symmetric mass ratio
    to component masses, and the baseline waveform generator
    [gen_IMRPhenomD] (frequency grid, parameters, reference frequency). *)
Variable Mc_eta_to_ms : R * R -> R * R.
Variable gen_IMRPhenomD : list R -> list R -> R -> list complex.

Definition get_kappa (theta : Theta) : R :=
  let '(m1, m2, chi1, chi2, lambda1, lambda2) := theta in
  let m1_s := m1 * gt in
  let m2_s := m2 * gt in
  let M_s := m1_s + m2_s in
  let eta := m1_s * m2_s / (M_s ^ 2) in
  let X1 := m1_s / M_s in
  let X2 := m2_s / M_s in
  let term1 := (1 + 12 * m2 / m1) * X1 ^ 5 * lambda1 in
  let term2 := (1 + 12 * m1 / m2) * X2 ^ 5 * lambda2 in
  (3 / 13) * (term1 + term2).

Definition get_tidal_phase (f : list R) (theta : Theta) (kappa : R) : list R :=
  let '(m1, m2, _, _, _, _) := theta in
  let m1_s := m1 * gt in
  let m2_s := m2 * gt in
  let M_s := m1_s + m2_s in
  let eta := m1_s * m2_s / (M_s ^ 2) in
  let X1 := m1_s / M_s in
  let X2 := m2_s / M_s in
  map (fun f =>
    let M_omega := PI * f * M_s in
    let PN_x := fpow M_omega (2 / 3) in
    let PN_x_2 := PN_x * PN_x in
    let PN_x_3over2 := fpow PN_x (3 / 2) in
    let PN_x_5over2 := fpow PN_x (5 / 2) in
    let c_Newt := 2.4375 in
    let n_1 := -17.428 in
    let n_3over2 := 31.867 in
    let n_2 := -26.414 in
    let n_5over2 := 62.362 in
    let d_1 := n_1 - 2.496 in
    let d_3over2 := 36.089 in
    let tidal_phase := - kappa * c_Newt / (X1 * X2) * PN_x_5over2 in
    let num := 1 + (n_1 * PN_x) + (n_3over2 * PN_x_3over2)
               + (n_2 * PN_x_2) + (n_5over2 * PN_x_5over2) in
    let den := 1 + (d_1 * PN_x) + (d_3over2 * PN_x_3over2) in
    let ratio := num / den in
    let psi_T := - kappa * (39 / (16 * eta)) * fpow f (5 / 2) * ratio in
    psi_T) f.

(** The two branches on the tidal deformability and the fit they select
    (the local [log_quadparam] of [_compute_quadparam_octparam]). *)
Definition log_quadparam (lambda_ : R) : R :=
  if Rleb 0 lambda_ && Rleb lambda_ 1 then
    1 + lambda_ * (0.427688866723244
         + lambda_ * (-0.324336526985068 + lambda_ * 0.1107439432180572))
  else
    let log_lambda := ln lambda_ in
    0.1940 + 0.09163 * log_lambda + 0.04812 * log_lambda ^ 2
    - 0.004286 * log_lambda ^ 3 + 0.00012450 * log_lambda ^ 4.

Definition _compute_quadparam_octparam (lambda_ : R) : R * R :=
  let log_quadparam := log_quadparam lambda_ in
  let log_octparam :=
    0.003131 + 2.071 * log_quadparam - 0.7152 * log_quadparam ^ 2
    + 0.2458 * log_quadparam ^ 3 - 0.03309 * log_quadparam ^ 4 in
  let quadparam := exp log_quadparam - 1 in
  let octparam := exp log_octparam - 1 in
  (quadparam, octparam).

Definition get_spin_phase_correction (f : list R) (theta : Theta) : list R :=
  let '(m1, m2, chi1, chi2, lambda1, lambda2) := theta in
  let m1_s := m1 * gt in
  let m2_s := m2 * gt in
  let M_s := m1_s + m2_s in
  let eta := m1_s * m2_s / (M_s ^ 2) in
  let X1 := m1_s / M_s in
  let X2 := m2_s / M_s in
  let X1sq := X1 * X1 in
  let X2sq := X2 * X2 in
  let chi1_sq := chi1 * chi1 in
  let chi2_sq := chi2 * chi2 in
  let '(quadparam1, octparam1) := _compute_quadparam_octparam lambda1 in
  let '(quadparam2, octparam2) := _compute_quadparam_octparam lambda2 in
  let SS_2 := - 50 * quadparam1 * X1sq * chi1_sq in
  let SS_2 := SS_2 + - 50 * quadparam2 * X2sq * chi2_sq in
  let SS_3 := (5 / 84) * (9407 + 8218 * X1 - 2016 * X1 ^ 2)
              * quadparam1 * X1 ^ 2 * chi1 ^ 2 in
  let SS_3 := SS_3 + (5 / 84) * (9407 + 8218 * X2 - 2016 * X2 ^ 2)
                     * quadparam2 * X2 ^ 2 * chi2 ^ 2 in
  let SS_3p5 := - 400 * PI * (quadparam1 - 1) * chi1_sq * X1sq
                - 400 * PI * (quadparam2 - 1) * chi2_sq * X2sq in
  let SS_3p5 := SS_3p5
    + (10 * ((X1sq + 308 / 3 * X1) * chi1 + (X2 - 89 / 3 * X2) * chi2)
         * (quadparam1 - 1) * X1sq * chi1_sq
       + 10 * ((X2sq + 308 / 3 * X2) * chi2 + (X1sq - 89 / 3 * X1) * chi1)
         * (quadparam2 - 1) * X2sq * chi2_sq
       - 440 * octparam1 * X1 * X1sq * chi1_sq * chi1
       - 440 * octparam2 * X2 * X2sq * chi2_sq * chi2) in
  let psi_SS :=
    map (fun f => (3 / (128 * eta))
                  * (SS_2 * fpow f (- 1 / 2) + SS_3 * fpow f (1 / 2)
                     + SS_3p5 * f)) f in
  (* Override - making SS contribution zero *)
  let psi_SS := zeros_like f in
  psi_SS.

Definition get_tidal_amplitude (f : list R) (theta : Theta) (kappa : R)
    (dL : R) : list R :=
  let '(m1, m2, _, _, _, _) := theta in
  let m1_s := m1 * gt in
  let m2_s := m2 * gt in
  let M_s := m1_s + m2_s in
  let eta := m1_s * m2_s / (M_s ^ 2) in
  let M_sec := M_s * gt in
  let prefac := 9 * kappa in
  let dist_s := (dL * m_per_Mpc) / C in
  map (fun f =>
    let x := fpow (PI * M_sec * f) (2 / 3) in
    let n1 := 4.157407407407407 in
    let n289 := 2519.111111111111 in
    let d := 13477.8073677 in
    let poly := (1 + n1 * x + n289 * fpow x 2.89) / (1 + d * x ^ 4) in
    let ampT := - prefac * fpow x 3.25 * poly in
    ampT / dist_s) f.

(** The dimensionless angular frequency of merger (the local
    [Momega_merger] of [_get_merger_frequency]) for a given [kappa]. *)
Definition Momega_merger (theta : Theta) (kappa : R) : R :=
  let '(m1, m2, chi1, chi2, lambda1, lambda2) := theta in
  let m1_s := m1 * gt in
  let m2_s := m2 * gt in
  let M_s := m1_s + m2_s in
  let q := m1_s / m2_s in
  let X1 := m1_s / M_s in
  let X2 := m2_s / M_s in
  let a_0 := 0.3586 in
  let n_1 := 3.35411203e-2 in
  let n_2 := 4.31460284e-5 in
  let d_1 := 7.54224145e-2 in
  let d_2 := 2.23626859e-4 in
  let kappa_sq := kappa ^ 2 in
  let num := 1 + n_1 * kappa + n_2 * kappa ^ 2 in
  let den := 1 + d_1 * kappa + d_2 * kappa ^ 2 in
  let Q_0 := a_0 * sqrt (X2 / X1) in
  Q_0 * (num / den).

(** [kappa = None] is the default argument: kappa is then recomputed. *)
Definition _get_merger_frequency (theta : Theta) (kappa : option R) : R :=
  let '(m1, m2, _, _, _, _) := theta in
  let m1_s := m1 * gt in
  let m2_s := m2 * gt in
  let M_s := m1_s + m2_s in
  let kappa := match kappa with
               | None => get_kappa theta
               | Some k => k
               end in
  let Momega_merger := Momega_merger theta kappa in
  let fHz_merger := Momega_merger / M_s / (2 * PI) in
  fHz_merger.

Definition _planck_taper (t : list R) (t1 t2 : R) : list R :=
  map (fun t =>
    let middle :=
      1 / (exp ((t2 - t1) / (t - t1) + (t2 - t1) / (t - t2)) + 1) in
    heaviside (t1 - t) 1 * 0
    + heaviside (t - t1) 1 * heaviside (t2 - t) 1 * middle
    + heaviside (t - t2) 1 * 1) t.

Definition get_planck_taper (f : list R) (theta : Theta) (kappa : R)
  : list R :=
  let f_merger := _get_merger_frequency theta (Some kappa) in
  let f_start := f_merger in
  let f_end := 1.2 * f_merger in
  let A_P := _planck_taper f f_start f_end in
  (* Safety override *)
  let A_P := zeros_like f in
  A_P.

(** The window factor of [_gen_NRTidalv2]:
    [A_P = jnp.ones_like(f) - get_planck_taper(f, theta_intrinsic, kappa)]. *)
Definition window_A_P (f : list R) (theta : Theta) (kappa : R)
  : option (list R) :=
  bcast2 Rminus (ones_like f) (get_planck_taper f theta kappa).

(** The phase [psi_T + psi_SS] of [_gen_NRTidalv2], both terms evaluated at
    the mass-scaled frequency [f * M_s]. *)
Definition combined_phase (f : list R) (theta : Theta) (kappa : R)
  : option (list R) :=
  let '(m1, m2, chi1, chi2, lambda1, lambda2) := theta in
  let M_s := (m1 + m2) * gt in
  let psi_T := get_tidal_phase (map (fun x => x * M_s) f) theta kappa in
  let psi_SS := get_spin_phase_correction (map (fun x => x * M_s) f) theta in
  bcast2 Rplus psi_T psi_SS.

(** The combination
    [h0 = A_P * (h0_bbh + A_T * exp(1j * -psi_bbh)) * exp(1j * -(psi_T + psi_SS))].
    [None] is the shape error raised when the baseline strain and the
    frequency grid cannot be broadcast together. *)
Definition _gen_NRTidalv2 (f : list R) (theta_intrinsic : Theta)
    (theta_extrinsic : ThetaExt) (h0_bbh : list complex)
  : option (list complex) :=
  let kappa := get_kappa theta_intrinsic in
  let A_bbh := map Cabs h0_bbh in
  psi_bbh <- bcast2 Cdivr h0_bbh A_bbh ;;
  let A_T := get_tidal_amplitude f theta_intrinsic kappa
               (ext0 theta_extrinsic) in
  A_P <- window_A_P f theta_intrinsic kappa ;;
  psi <- combined_phase f theta_intrinsic kappa ;;
  tidal <- bcast2 (fun a e => Cmul (RtoC a) e) A_T
             (map (fun p => Cexp (Cmul Ci (Cneg p))) psi_bbh) ;;
  total <- bcast2 Cadd h0_bbh tidal ;;
  windowed <- bcast2 (fun a z => Cmul (RtoC a) z) A_P total ;;
  bcast2 Cmul windowed (map (fun p => Cexp (Cmul Ci (RtoC (- p)))) psi).

(** The two [print] calls of the source are not modelled.  In the branch of
    the unrecognised name the source returns [jnp.zeros_like(f)], an array
    with the shape and dtype of [f]; as a strain it is read here as the
    complex array of zeros. *)
Definition gen_NRTidalv2 (f : list R) (params : Params) (f_ref : R)
    (IMRphenom : string) : option (list complex) :=
  let '(m1, m2) := Mc_eta_to_ms (par_Mchirp params, par_eta params) in
  let theta_intrinsic : Theta :=
    (m1, m2, par_chi1 params, par_chi2 params,
     par_lambda1 params, par_lambda2 params) in
  let theta_extrinsic : ThetaExt :=
    (par_D params, par_tc params, par_phic params) in
  let bbh_params :=
    [par_Mchirp params; par_eta params; par_chi1 params; par_chi2 params]
    ++ [par_D params; par_tc params; par_phic params] in
  if String.eqb IMRphenom "IMRPhenomD" then
    let h0_bbh := gen_IMRPhenomD f bbh_params f_ref in
    _gen_NRTidalv2 f theta_intrinsic theta_extrinsic h0_bbh
  else
    (* IMRPhenom string not recognized *)
    Some (map RtoC (zeros_like f)).

(** The projection onto the two polarisations, the last step of
    [gen_NRTidalv2_hphc]:
    [hp = h0 * (1 / 2 * (1 + jnp.cos(iota) ** 2))] and
    [hc = -1j * h0 * jnp.cos(iota)]. *)
Definition polarizations (h0 : list complex) (iota : R)
  : list complex * list complex :=
  let hp := map (fun h => Cmul h (RtoC (1 / 2 * (1 + cos iota ^ 2)))) h0 in
  let hc := map (fun h => Cmul (Cmul (Cneg Ci) h) (RtoC (cos iota))) h0 in
  (hp, hc).

Definition gen_NRTidalv2_hphc (f : list R) (params : ParamsHphc) (f_ref : R)
    (IMRphenom : string) : option (list complex * list complex) :=
  let iota := par_inclination params in
  h0 <- gen_NRTidalv2 f (par_base params) f_ref IMRphenom ;;
  Some (polarizations h0 iota).

(** *** The tidal amplitude as the specification words it *)

(** The Pade factor [x^3.25 (1 + n1 x + n289 x^2.89) / (1 + d x^4)]. *)
Definition pade_amplitude (x : R) : R :=
  fpow x 3.25
  * ((1 + 4.157407407407407 * x + 2519.111111111111 * fpow x 2.89)
     / (1 + 13477.8073677 * x ^ 4)).

(** The amplitude at one frequency sample for a total mass [M_sec] in
    seconds: [ampT / dist_s] with [x = (PI M_sec f)^(2/3)],
    [ampT = - 9 kappa x^3.25 (1 + n1 x + n289 x^2.89) / (1 + d x^4)] and
    [dist_s = (dL m_per_Mpc) / C]. *)
Definition tidal_amplitude_at (M_sec kappa dL f : R) : R :=
  let x := fpow (PI * M_sec * f) (2 / 3) in
  let ampT := - 9 * kappa * pade_amplitude x in
  let dist_s := (dL * m_per_Mpc) / C in
  ampT / dist_s.

(** The specification's tidal amplitude: the total mass is converted to
    seconds once, [M_sec = (m1 + m2) gt]. *)
Definition spec_tidal_amplitude (f : list R) (theta : Theta) (kappa : R)
    (dL : R) : list R :=
  let '(m1, m2, _, _, _, _) := theta in
  map (tidal_amplitude_at ((m1 + m2) * gt) kappa dL) f.

(** *** The combined strain at one sample *)

(** One sample of the combination of [_gen_NRTidalv2] with the window
    factor 1 and no spin term:
    [(h + A_T * exp(1j * -(h / |h|))) * exp(1j * -psi_T)] for a baseline
    sample [h], a tidal amplitude [A_T] and a tidal phase [psi_T]. *)
Definition strain_sample (A_T psi_T : R) (h : complex) : complex :=
  Cmul (Cadd h (Cmul (RtoC A_T)
                  (Cexp (Cmul Ci (Cneg (Cdivr h (Cabs h)))))))
       (Cexp (Cmul Ci (RtoC (- psi_T)))).

(* ================================================================== *)
(** ** Complex numbers: facts *)

Lemma C_eq (a b : complex) : Re a = Re b -> Im a = Im b -> a = b.
Proof. destruct a, b; simpl; intros -> ->; reflexivity. Qed.

Lemma Cmul_1_r (a : complex) : Cmul a (RtoC 1) = a.
Proof. destruct a; apply C_eq; simpl; ring. Qed.

Lemma Cabs_nonneg (a : complex) : 0 <= Cabs a.
Proof. apply sqrt_pos. Qed.

Lemma Cabs_mul (a b : complex) : Cabs (Cmul a b) = Cabs a * Cabs b.
Proof.
  unfold Cabs; simpl.
  rewrite <- sqrt_mult by nra.
  f_equal; ring.
Qed.

Lemma Cabs_RtoC (r : R) : Cabs (RtoC r) = Rabs r.
Proof.
  unfold Cabs; simpl.
  replace (r * r + 0 * 0) with (Rsqr r) by (unfold Rsqr; ring).
  apply sqrt_Rsqr_abs.
Qed.

Lemma Cabs_neg_Ci : Cabs (Cneg Ci) = 1.
Proof.
  unfold Cabs; simpl.
  replace (- 0 * - 0 + - (1) * - (1)) with 1 by ring.
  apply sqrt_1.
Qed.

Lemma Cabs_eq_0 (a : complex) : Cabs a = 0 -> a = C0.
Proof.
  unfold Cabs; intros H.
  apply sqrt_eq_0 in H; [| nra].
  apply C_eq; simpl; nra.
Qed.

Lemma Cexp_0 : Cexp C0 = C1.
Proof.
  unfold Cexp, C0, C1; simpl.
  rewrite exp_0, cos_0, sin_0. apply C_eq; simpl; ring.
Qed.

(* ================================================================== *)
(** ** Arrays: facts *)

Lemma map2_map_l {A A' B D} (op : A' -> B -> D) (g : A -> A') xs ys :
  map2 op (map g xs) ys = map2 (fun x y => op (g x) y) xs ys.
Proof.
  revert ys; induction xs as [| x xs IH]; intros [| y ys]; simpl; auto.
  now rewrite IH.
Qed.

Lemma map2_map_r {A B B' D} (op : A -> B' -> D) (g : B -> B') xs ys :
  map2 op xs (map g ys) = map2 (fun x y => op x (g y)) xs ys.
Proof.
  revert ys; induction xs as [| x xs IH]; intros [| y ys]; simpl; auto.
  now rewrite IH.
Qed.

Lemma map2_diag {A D} (op : A -> A -> D) xs :
  map2 op xs xs = map (fun x => op x x) xs.
Proof. induction xs as [| x xs IH]; simpl; auto. now rewrite IH. Qed.

Lemma map2_length {A B D} (op : A -> B -> D) xs ys :
  length xs = length ys -> length (map2 op xs ys) = length xs.
Proof.
  revert ys; induction xs as [| x xs IH]; intros [| y ys]; simpl;
    try discriminate; try reflexivity.
  intros H; injection H as H. now rewrite IH.
Qed.

Lemma map2_const_l {A B D E} (op : B -> D -> E) (c : B) (xs : list A) ys :
  length xs = length ys ->
  map2 op (map (fun _ => c) xs) ys = map (op c) ys.
Proof.
  revert ys; induction xs as [| x xs IH]; intros [| y ys]; simpl;
    try discriminate; try reflexivity.
  intros H; injection H as H. now rewrite IH.
Qed.

Lemma map2_const_r {A B D E} (op : A -> D -> E) (c : D) xs (ys : list B) :
  length xs = length ys ->
  map2 op xs (map (fun _ => c) ys) = map (fun x => op x c) xs.
Proof.
  revert ys; induction xs as [| x xs IH]; intros [| y ys]; simpl;
    try discriminate; try reflexivity.
  intros H; injection H as H. now rewrite IH.
Qed.

(** With operands of equal length broadcasting is the element-wise map. *)
Lemma bcast2_same_length {A B D} (op : A -> B -> D) xs ys :
  length xs = length ys -> bcast2 op xs ys = Some (map2 op xs ys).
Proof.
  intros H. unfold bcast2.
  destruct xs as [| x [| x' xs]], ys as [| y [| y' ys]];
    simpl in *; try discriminate; try reflexivity.
  injection H as H. rewrite H, Nat.eqb_refl. reflexivity.
Qed.

(* ================================================================== *)
(** ** Scalar primitives: facts *)

Lemma Rleb_true (x y : R) : x <= y -> Rleb x y = true.
Proof. intros H; unfold Rleb; destruct (Rle_dec x y); [reflexivity | contradiction]. Qed.

Lemma fpow_pos (x y : R) : 0 < x -> fpow x y = Rpower x y.
Proof. intros H; unfold fpow; destruct (Rlt_dec 0 x); [reflexivity | contradiction]. Qed.

(* ================================================================== *)
(** ** Shared lemmas *)

(** Unpacking of an intrinsic parameter array into its six entries. *)
Ltac unpack theta :=
  let m1 := fresh "m1" in let m2 := fresh "m2" in
  let chi1 := fresh "chi1" in let chi2 := fresh "chi2" in
  let lambda1 := fresh "lambda1" in let lambda2 := fresh "lambda2" in
  destruct theta as [[[[[m1 m2] chi1] chi2] lambda1] lambda2].

Lemma zeros_like_length {A : Type} (f : list A) :
  length (zeros_like f) = length f.
Proof. unfold zeros_like. apply length_map. Qed.

Lemma zeros_like_all_zero {A : Type} (f : list A) :
  Forall (fun v => v = 0) (zeros_like f).
Proof. unfold zeros_like. induction f; simpl; constructor; auto. Qed.

(** Two arrays computed sample by sample from the same array combine
    sample by sample. *)
Lemma bcast2_map_map {A B B' D : Type} (op : B -> B' -> D)
    (g : A -> B) (h : A -> B') (xs : list A) :
  bcast2 op (map g xs) (map h xs) = Some (map (fun x => op (g x) (h x)) xs).
Proof.
  rewrite bcast2_same_length by (now rewrite !length_map).
  now rewrite map2_map_l, map2_map_r, map2_diag.
Qed.

Lemma get_spin_phase_correction_zeros (f : list R) (theta : Theta) :
  get_spin_phase_correction f theta = zeros_like f.
Proof.
  unpack theta.
  unfold get_spin_phase_correction.
  destruct (_compute_quadparam_octparam lambda1) as [quadparam1 octparam1].
  destruct (_compute_quadparam_octparam lambda2) as [quadparam2 octparam2].
  reflexivity.
Qed.

Lemma get_planck_taper_zeros (f : list R) (theta : Theta) (kappa : R) :
  get_planck_taper f theta kappa = zeros_like f.
Proof. reflexivity. Qed.

Lemma get_tidal_phase_length (f : list R) (theta : Theta) (kappa : R) :
  length (get_tidal_phase f theta kappa) = length f.
Proof.
  unpack theta.
  unfold get_tidal_phase. apply length_map.
Qed.

Lemma window_A_P_ones (f : list R) (theta : Theta) (kappa : R) :
  window_A_P f theta kappa = Some (ones_like f).
Proof.
  unfold window_A_P. rewrite get_planck_taper_zeros.
  unfold ones_like, zeros_like. rewrite bcast2_map_map.
  f_equal. apply map_ext. intros _. ring.
Qed.

Lemma combined_phase_tidal_only (f : list R) (m1 m2 chi1 chi2 lambda1 lambda2 kappa : R) :
  let theta : Theta := (m1, m2, chi1, chi2, lambda1, lambda2) in
  combined_phase f theta kappa
  = Some (get_tidal_phase (map (fun x => x * ((m1 + m2) * gt)) f) theta kappa).
Proof.
  intros theta. unfold combined_phase, theta.
  rewrite get_spin_phase_correction_zeros.
  unfold get_tidal_phase, zeros_like.
  rewrite bcast2_map_map. f_equal. apply map_ext. intros a. ring.
Qed.

(* ================================================================== *)
(** ** The disabled corrections *)

(** C2. [get_spin_phase_correction] returns an array of zeros of the same
    shape as its frequency argument, whatever the parameters: the
    spin-squared series is computed and then overridden.  Hence in the
    combined phase of [_gen_NRTidalv2] the term [psi_SS] is zero at every
    sample, and the phase is the tidal phase [psi_T] alone. *)
Theorem spin_phase_correction_is_zero
    (f : list R) (m1 m2 chi1 chi2 lambda1 lambda2 kappa : R) :
  let theta : Theta := (m1, m2, chi1, chi2, lambda1, lambda2) in
  let f_scaled := map (fun x => x * ((m1 + m2) * gt)) f in
  get_spin_phase_correction f theta = zeros_like f
  /\ length (get_spin_phase_correction f theta) = length f
  /\ Forall (fun v => v = 0) (get_spin_phase_correction f theta)
  /\ Forall (fun v => v = 0) (get_spin_phase_correction f_scaled theta)
  /\ combined_phase f theta kappa
     = Some (get_tidal_phase f_scaled theta kappa).
Proof.
  intros theta f_scaled.
  rewrite !get_spin_phase_correction_zeros.
  repeat split.
  - apply zeros_like_length.
  - apply zeros_like_all_zero.
  - apply zeros_like_all_zero.
  - apply combined_phase_tidal_only.
Qed.

(** C3. [get_planck_taper] returns an array of zeros for every frequency
    array, parameter tuple and kappa, so the window factor
    [A_P = 1 - taper] of [_gen_NRTidalv2] is 1 at every frequency sample. *)
Theorem planck_taper_is_zero (f : list R) (theta : Theta) (kappa : R) :
  get_planck_taper f theta kappa = zeros_like f
  /\ length (get_planck_taper f theta kappa) = length f
  /\ Forall (fun v => v = 0) (get_planck_taper f theta kappa)
  /\ window_A_P f theta kappa = Some (ones_like f)
  /\ Forall (fun v => v = 1) (ones_like f).
Proof.
  rewrite get_planck_taper_zeros. repeat split.
  - apply zeros_like_length.
  - apply zeros_like_all_zero.
  - apply window_A_P_ones.
  - unfold ones_like. induction f; simpl; constructor; auto.
Qed.

(* ================================================================== *)
(** ** The unrecognised approximant *)

(** C6. When the approximant name is not ["IMRPhenomD"], [gen_NRTidalv2]
    returns normally, and the strain it returns is zero at every sample and
    has the length of the frequency grid. *)
Theorem unrecognized_approximant_gives_zeros
    (f : list R) (params : Params) (f_ref : R) (IMRphenom : string) :
  IMRphenom <> "IMRPhenomD"%string ->
  exists h0,
    gen_NRTidalv2 f params f_ref IMRphenom = Some h0
    /\ h0 = map RtoC (zeros_like f)
    /\ length h0 = length f
    /\ Forall (fun z => z = C0) h0.
Proof.
  intros Hname.
  exists (map RtoC (zeros_like f)).
  split; [| split; [reflexivity | split]].
  - unfold gen_NRTidalv2.
    destruct (Mc_eta_to_ms (par_Mchirp params, par_eta params)) as [m1 m2].
    apply String.eqb_neq in Hname. now rewrite Hname.
  - now rewrite length_map, zeros_like_length.
  - unfold zeros_like. induction f; simpl; constructor; auto.
Qed.

(* ================================================================== *)
(** ** The quadrupole fit *)

(** C7. [_compute_quadparam_octparam] takes the polynomial branch for every
    deformability between 0 and 1, both ends included; at 0 the logarithm
    of the quadrupole parameter is 1 and the parameter is [e - 1], which is
    not 0. *)
Theorem quadparam_polynomial_branch :
  (forall lambda_ : R, 0 <= lambda_ <= 1 ->
     log_quadparam lambda_
     = 1 + lambda_ * (0.427688866723244
           + lambda_ * (-0.324336526985068 + lambda_ * 0.1107439432180572))
     /\ fst (_compute_quadparam_octparam lambda_)
        = exp (1 + lambda_ * (0.427688866723244
                + lambda_ * (-0.324336526985068
                             + lambda_ * 0.1107439432180572))) - 1)
  /\ log_quadparam 0 = 1
  /\ log_quadparam 1
     = 1 + (0.427688866723244 + (-0.324336526985068 + 0.1107439432180572))
  /\ fst (_compute_quadparam_octparam 0) = exp 1 - 1
  /\ fst (_compute_quadparam_octparam 0) <> 0.
Proof.
  assert (Hbranch : forall l : R, 0 <= l <= 1 ->
            log_quadparam l
            = 1 + l * (0.427688866723244
                  + l * (-0.324336526985068 + l * 0.1107439432180572))).
  { intros l [H0 H1]. unfold log_quadparam.
    now rewrite (Rleb_true 0 l H0), (Rleb_true l 1 H1). }
  assert (H0 : log_quadparam 0 = 1).
  { rewrite Hbranch by lra. ring. }
  repeat split.
  - now apply Hbranch.
  - unfold _compute_quadparam_octparam; simpl. now rewrite Hbranch.
  - exact H0.
  - rewrite Hbranch by lra. ring.
  - unfold _compute_quadparam_octparam; simpl. now rewrite H0.
  - unfold _compute_quadparam_octparam; simpl. rewrite H0.
    pose proof (exp_ineq1 1 ltac:(lra)). lra.
Qed.

(* ================================================================== *)
(** ** The polarisation projection *)

Lemma polarizations_lengths (h0 : list complex) (iota : R) :
  length (fst (polarizations h0 iota)) = length h0
  /\ length (snd (polarizations h0 iota)) = length h0.
Proof. unfold polarizations; simpl. now rewrite !length_map. Qed.

Lemma polarizations_nth (h0 : list complex) (iota : R) (k : nat) :
  (k < length h0)%nat ->
  nth k (fst (polarizations h0 iota)) C0
  = Cmul (nth k h0 C0) (RtoC (1 / 2 * (1 + cos iota ^ 2)))
  /\ nth k (snd (polarizations h0 iota)) C0
     = Cmul (Cmul (Cneg Ci) (nth k h0 C0)) (RtoC (cos iota)).
Proof.
  intros Hk. unfold polarizations; simpl. split.
  - rewrite (nth_indep _ C0 (Cmul C0 (RtoC (1 / 2 * (1 + cos iota ^ 2)))))
      by (now rewrite length_map).
    apply (map_nth (fun h => Cmul h (RtoC (1 / 2 * (1 + cos iota ^ 2))))).
  - rewrite (nth_indep _ C0 (Cmul (Cmul (Cneg Ci) C0) (RtoC (cos iota))))
      by (now rewrite length_map).
    apply (map_nth (fun h => Cmul (Cmul (Cneg Ci) h) (RtoC (cos iota)))).
Qed.

Lemma Cabs_hp (h : complex) (iota : R) :
  Cabs (Cmul h (RtoC (1 / 2 * (1 + cos iota ^ 2))))
  = Cabs h * ((1 + cos iota ^ 2) / 2).
Proof.
  rewrite Cabs_mul, Cabs_RtoC, Rabs_pos_eq.
  - field.
  - pose proof (pow2_ge_0 (cos iota)). lra.
Qed.

Lemma Cabs_hc (h : complex) (iota : R) :
  Cabs (Cmul (Cmul (Cneg Ci) h) (RtoC (cos iota)))
  = Cabs h * Rabs (cos iota).
Proof. rewrite !Cabs_mul, Cabs_RtoC, Cabs_neg_Ci. ring. Qed.

(** C9 (amended). At inclination 0 the projection returns [hp = h0] and
    [hc = -1j * h0]: the cross polarisation has the modulus of [h0] at every
    sample, and it is zero at a sample only where [h0] is.  The same holds
    for the pair returned by [gen_NRTidalv2_hphc]. *)
Theorem polarizations_at_zero_inclination :
  (forall h0 : list complex,
     polarizations h0 0 = (h0, map (Cmul (Cneg Ci)) h0)
     /\ map Cabs (snd (polarizations h0 0)) = map Cabs h0)
  /\ (forall (f : list R) (base : Params) (f_ref : R) (IMRphenom : string),
        gen_NRTidalv2_hphc f (mkParamsHphc base 0) f_ref IMRphenom
        = (h0 <- gen_NRTidalv2 f base f_ref IMRphenom ;;
           Some (h0, map (Cmul (Cneg Ci)) h0))).
Proof.
  assert (Hproj : forall h0 : list complex,
            polarizations h0 0 = (h0, map (Cmul (Cneg Ci)) h0)).
  { intros h0. unfold polarizations. rewrite cos_0. f_equal.
    - rewrite <- (map_id h0) at 2. apply map_ext. intros h.
      replace (1 / 2 * (1 + 1 ^ 2)) with 1 by field. apply Cmul_1_r.
    - apply map_ext. intros h. apply Cmul_1_r. }
  split.
  - intros h0. split; [apply Hproj |].
    rewrite Hproj; simpl. rewrite map_map. apply map_ext. intros h.
    rewrite Cabs_mul, Cabs_neg_Ci. ring.
  - intros f base f_ref IMRphenom. unfold gen_NRTidalv2_hphc; simpl.
    destruct (gen_NRTidalv2 f base f_ref IMRphenom) as [h0 |]; simpl;
      [now rewrite Hproj | reflexivity].
Qed.

(** C10. For every inclination and every combined strain, the cross
    polarisation is nowhere larger in modulus than the plus polarisation;
    the two moduli agree at a sample only if [|cos iota| = 1] or the strain
    is zero there. *)
Theorem cross_modulus_le_plus_modulus (h0 : list complex) (iota : R) :
  let hp := fst (polarizations h0 iota) in
  let hc := snd (polarizations h0 iota) in
  length hp = length h0 /\ length hc = length h0
  /\ forall k : nat, (k < length h0)%nat ->
       Cabs (nth k hc C0) <= Cabs (nth k hp C0)
       /\ (Cabs (nth k hc C0) = Cabs (nth k hp C0) ->
           Rabs (cos iota) = 1 \/ nth k h0 C0 = C0).
Proof.
  intros hp hc. subst hp hc.
  destruct (polarizations_lengths h0 iota) as [Lp Lc].
  split; [exact Lp | split; [exact Lc |]].
  intros k Hk.
  destruct (polarizations_nth h0 iota k Hk) as [-> ->].
  rewrite Cabs_hp, Cabs_hc.
  set (a := Rabs (cos iota)).
  assert (Ha : 0 <= a) by apply Rabs_pos.
  assert (Hsq : cos iota ^ 2 = a * a).
  { unfold a. rewrite <- (pow2_abs (cos iota)). ring. }
  rewrite Hsq.
  pose proof (Cabs_nonneg (nth k h0 C0)) as Hh.
  set (H := Cabs (nth k h0 C0)) in *.
  assert (Hgap : H * ((1 + a * a) / 2) - H * a = H * ((1 - a) * (1 - a) / 2))
    by field.
  assert (Hsqr : 0 <= (1 - a) * (1 - a)) by apply (Rle_0_sqr (1 - a)).
  split.
  - assert (0 <= H * ((1 - a) * (1 - a) / 2)).
    { apply Rmult_le_pos; lra. }
    lra.
  - intros Heq.
    destruct (Req_dec H 0) as [Hz | Hnz].
    + right. now apply Cabs_eq_0.
    + left.
      assert (Hprod : H * ((1 - a) * (1 - a) / 2) = 0) by lra.
      apply Rmult_integral in Hprod. destruct Hprod as [Hp | Hp]; [lra |].
      assert (Hp' : (1 - a) * (1 - a) = 0) by lra.
      apply Rmult_integral in Hp'. lra.
Qed.

(* ================================================================== *)
(** ** Exchange of the two bodies *)

Lemma get_kappa_swap (theta : Theta) :
  get_kappa (swap_bodies theta) = get_kappa theta.
Proof.
  unpack theta.
  unfold get_kappa, swap_bodies.
  replace (m2 * gt + m1 * gt) with (m1 * gt + m2 * gt) by ring.
  ring.
Qed.

Lemma get_tidal_amplitude_swap (f : list R) (theta : Theta) (kappa dL : R) :
  get_tidal_amplitude f (swap_bodies theta) kappa dL
  = get_tidal_amplitude f theta kappa dL.
Proof.
  unpack theta.
  unfold get_tidal_amplitude, swap_bodies.
  replace (m2 * gt + m1 * gt) with (m1 * gt + m2 * gt) by ring.
  reflexivity.
Qed.

Lemma get_tidal_phase_swap (f : list R) (theta : Theta) (kappa : R) :
  get_tidal_phase f (swap_bodies theta) kappa = get_tidal_phase f theta kappa.
Proof.
  unpack theta.
  unfold get_tidal_phase, swap_bodies.
  replace (m2 * gt + m1 * gt) with (m1 * gt + m2 * gt) by ring.
  replace (m2 * gt * (m1 * gt)) with (m1 * gt * (m2 * gt)) by ring.
  reflexivity.
Qed.

Lemma combined_phase_swap (f : list R) (theta : Theta) (kappa : R) :
  combined_phase f (swap_bodies theta) kappa = combined_phase f theta kappa.
Proof.
  unpack theta.
  pose proof (combined_phase_tidal_only f m2 m1 chi2 chi1 lambda2 lambda1 kappa)
    as Hs.
  pose proof (combined_phase_tidal_only f m1 m2 chi1 chi2 lambda1 lambda2 kappa)
    as Ho.
  cbv zeta in Hs, Ho. unfold swap_bodies. rewrite Hs, Ho.
  replace (m2 + m1) with (m1 + m2) by ring.
  f_equal.
  apply (get_tidal_phase_swap _ (m1, m2, chi1, chi2, lambda1, lambda2)).
Qed.

(** When the baseline strain is aligned with the frequency grid the
    combination returns a strain of the same length. *)
Lemma _gen_NRTidalv2_returns (f : list R) (theta : Theta)
    (theta_extrinsic : ThetaExt) (h0_bbh : list complex) :
  length h0_bbh = length f ->
  exists h0, _gen_NRTidalv2 f theta theta_extrinsic h0_bbh = Some h0
             /\ length h0 = length f.
Proof.
  intros Hlen.
  unpack theta.
  unfold _gen_NRTidalv2.
  rewrite bcast2_same_length by (now rewrite length_map). cbn [bind].
  rewrite window_A_P_ones. cbn [bind].
  rewrite (combined_phase_tidal_only f m1 m2 chi1 chi2 lambda1 lambda2). cbn [bind].
  set (A_T := get_tidal_amplitude _ _ _ _).
  assert (LA : length A_T = length f).
  { unfold A_T, get_tidal_amplitude. apply length_map. }
  set (psi_bbh := map2 Cdivr h0_bbh (map Cabs h0_bbh)).
  assert (Lpsi : length psi_bbh = length f).
  { unfold psi_bbh. rewrite map2_length; [exact Hlen | now rewrite length_map]. }
  rewrite bcast2_same_length by (rewrite length_map; congruence). cbn [bind].
  set (tidal := map2 _ A_T _).
  assert (Lt : length tidal = length f).
  { unfold tidal. rewrite map2_length; [exact LA |].
    rewrite length_map. congruence. }
  rewrite bcast2_same_length by congruence. cbn [bind].
  set (total := map2 Cadd h0_bbh tidal).
  assert (Ltot : length total = length f).
  { unfold total. rewrite map2_length; congruence. }
  rewrite bcast2_same_length
    by (unfold ones_like; rewrite length_map; congruence). cbn [bind].
  set (windowed := map2 _ (ones_like f) total).
  assert (Lw : length windowed = length f).
  { unfold windowed. rewrite map2_length; unfold ones_like;
      rewrite length_map; congruence. }
  set (psi_T := get_tidal_phase _ _ _).
  assert (LT : length psi_T = length f).
  { unfold psi_T. now rewrite get_tidal_phase_length, length_map. }
  rewrite bcast2_same_length by (rewrite length_map; congruence).
  eexists; split; [reflexivity |].
  rewrite map2_length; [exact Lw | rewrite length_map; congruence].
Qed.

(** C1. Exchanging the labels of the two bodies, [(m1, chi1, lambda1)] with
    [(m2, chi2, lambda2)], changes neither the value of [get_kappa] nor the
    combined strain returned by [_gen_NRTidalv2] for the same frequency
    grid, extrinsic parameters and baseline strain. *)
Theorem body_exchange_symmetry
    (m1 m2 chi1 chi2 lambda1 lambda2 : R) (f : list R)
    (theta_extrinsic : ThetaExt) (h0_bbh : list complex) :
  get_kappa (m2, m1, chi2, chi1, lambda2, lambda1)
  = get_kappa (m1, m2, chi1, chi2, lambda1, lambda2)
  /\ _gen_NRTidalv2 f (m2, m1, chi2, chi1, lambda2, lambda1)
       theta_extrinsic h0_bbh
     = _gen_NRTidalv2 f (m1, m2, chi1, chi2, lambda1, lambda2)
         theta_extrinsic h0_bbh.
Proof.
  set (theta := (m1, m2, chi1, chi2, lambda1, lambda2)).
  change (m2, m1, chi2, chi1, lambda2, lambda1) with (swap_bodies theta).
  split; [apply get_kappa_swap |].
  unfold _gen_NRTidalv2.
  rewrite get_kappa_swap, get_tidal_amplitude_swap, combined_phase_swap.
  rewrite !window_A_P_ones.
  reflexivity.
Qed.

(* ================================================================== *)
(** ** The limit of vanishing deformability *)

Lemma get_tidal_phase_kappa_0 (f : list R) (theta : Theta) :
  get_tidal_phase f theta 0 = zeros_like f.
Proof.
  unpack theta.
  unfold get_tidal_phase, zeros_like.
  apply map_ext. intros a. ring.
Qed.

Lemma get_tidal_amplitude_kappa_0 (f : list R) (theta : Theta) (dL : R) :
  get_tidal_amplitude f theta 0 dL = zeros_like f.
Proof.
  unpack theta.
  unfold get_tidal_amplitude, zeros_like.
  apply map_ext. intros a. unfold Rdiv. ring.
Qed.

(** C5. With both deformabilities zero [get_kappa] returns 0, and with that
    kappa the tidal phase of [get_tidal_phase] and the tidal amplitude of
    [get_tidal_amplitude] are 0 at every sample of a strictly positive
    frequency grid.  Masses, distance and the unit constants are positive,
    so that no quotient of the source has a zero divisor. *)
Theorem zero_deformability_no_tidal_terms
    (m1 m2 chi1 chi2 dL : R) (f : list R) :
  0 < gt -> 0 < m_per_Mpc -> 0 < C ->
  0 < m1 -> 0 < m2 -> 0 < dL ->
  Forall (fun x => 0 < x) f ->
  let theta : Theta := (m1, m2, chi1, chi2, 0, 0) in
  get_kappa theta = 0
  /\ get_tidal_phase f theta (get_kappa theta) = zeros_like f
  /\ get_tidal_amplitude f theta (get_kappa theta) dL = zeros_like f
  /\ Forall (fun v => v = 0) (get_tidal_phase f theta (get_kappa theta))
  /\ Forall (fun v => v = 0)
       (get_tidal_amplitude f theta (get_kappa theta) dL).
Proof.
  intros _ _ _ _ _ _ _ theta.
  assert (Hk : get_kappa theta = 0).
  { unfold theta, get_kappa. ring. }
  rewrite Hk, get_tidal_phase_kappa_0, get_tidal_amplitude_kappa_0.
  repeat split; try apply zeros_like_all_zero.
Qed.

(** The denominator of the Pade ratio of [get_tidal_phase] is positive at
    a positive argument: with [y = sqrt x] it is
    [1 - 19.924 y^2 + 36.089 y^3], whose minimum on [y >= 0] is about 0.1. *)
Lemma tidal_phase_denominator_pos (x : R) :
  0 < x -> 0 < 1 + (-17.428 - 2.496) * x + 36.089 * fpow x (3 / 2).
Proof.
  intros Hx. rewrite fpow_pos by assumption.
  replace (3 / 2) with (1 + / 2) by field.
  rewrite Rpower_plus, Rpower_1, Rpower_sqrt by assumption.
  set (y := sqrt x).
  assert (Hy : 0 < y) by (now apply sqrt_lt_R0).
  assert (Hyy : x = y * y) by (unfold y; rewrite sqrt_sqrt; lra).
  rewrite Hyy. clearbody y. clear Hyy.
  destruct (Rle_dec y 1) as [Hle | Hgt].
  - pose proof (Rle_0_sqr (y - 0.368)) as Hsq. unfold Rsqr in Hsq.
    assert (Hprod : 0 <= (y - 0.368) * (y - 0.368) * (36.089 * y + 6.637504)).
    { apply Rmult_le_pos; lra. }
    nra.
  - assert (Hprod : 0 <= y * y * (36.089 * y - 19.924)).
    { apply Rmult_le_pos; [apply Rmult_le_pos |]; lra. }
    nra.
Qed.

Lemma get_kappa_zero_deformability (m1 m2 chi1 chi2 : R) :
  get_kappa (m1, m2, chi1, chi2, 0, 0) = 0.
Proof. unfold get_kappa. ring. Qed.

(** The BBH limit of the combination: with both deformabilities zero the
    strain returned by [_gen_NRTidalv2] is the baseline strain.  (The
    baseline is taken non-zero at every sample: the source divides it by its
    modulus.) *)
Lemma _gen_NRTidalv2_zero_deformability
    (f : list R) (m1 m2 chi1 chi2 : R) (theta_extrinsic : ThetaExt)
    (h0_bbh : list complex) :
  length h0_bbh = length f ->
  Forall (fun h => h <> C0) h0_bbh ->
  _gen_NRTidalv2 f (m1, m2, chi1, chi2, 0, 0) theta_extrinsic h0_bbh
  = Some h0_bbh.
Proof.
  intros Hlen _.
  unfold _gen_NRTidalv2.
  rewrite get_kappa_zero_deformability, get_tidal_amplitude_kappa_0.
  rewrite window_A_P_ones.
  rewrite (combined_phase_tidal_only f m1 m2 chi1 chi2 0 0).
  rewrite get_tidal_phase_kappa_0.
  rewrite bcast2_same_length by (now rewrite length_map). cbn [bind].
  rewrite map2_map_r, map2_diag, map_map.
  unfold zeros_like, ones_like.
  rewrite bcast2_same_length by (now rewrite !length_map). cbn [bind].
  rewrite map2_const_l by (now rewrite length_map).
  rewrite map_map.
  rewrite bcast2_same_length by (now rewrite length_map). cbn [bind].
  rewrite map2_map_r, map2_diag.
  rewrite bcast2_same_length by (now rewrite !length_map). cbn [bind].
  rewrite map2_const_l by (now rewrite length_map).
  rewrite !map_map.
  rewrite bcast2_same_length by (now rewrite !length_map).
  rewrite map2_const_r by (now rewrite length_map).
  rewrite map_map. f_equal.
  rewrite <- (map_id h0_bbh) at 2. apply map_ext. intros h.
  replace (Cmul Ci (RtoC (- 0))) with C0 by (apply C_eq; simpl; ring).
  rewrite Cexp_0.
  destruct h as [a b]. apply C_eq; simpl; ring.
Qed.

(* ================================================================== *)
(** ** The merger frequency *)

(** A quotient of two quadratics with the shape of the merger fit falls
    strictly on the non-negative axis. *)
Lemma rational_fit_decreasing (n_1 n_2 d_1 d_2 k k' : R) :
  0 <= d_1 -> 0 <= d_2 ->
  n_1 < d_1 -> n_2 <= d_2 -> n_2 * d_1 <= n_1 * d_2 ->
  0 <= k -> k < k' ->
  (1 + n_1 * k' + n_2 * k' ^ 2) / (1 + d_1 * k' + d_2 * k' ^ 2)
  < (1 + n_1 * k + n_2 * k ^ 2) / (1 + d_1 * k + d_2 * k ^ 2).
Proof.
  intros Hd1 Hd2 H1 H2 H3 Hk Hkk'.
  assert (Hk' : 0 <= k') by lra.
  assert (Hden : forall x, 0 <= x -> 0 < 1 + d_1 * x + d_2 * x ^ 2).
  { intros x Hx.
    assert (0 <= d_1 * x) by (apply Rmult_le_pos; lra).
    assert (0 <= d_2 * x ^ 2).
    { apply Rmult_le_pos; [lra | apply pow2_ge_0]. }
    lra. }
  pose proof (Hden k Hk) as HD. pose proof (Hden k' Hk') as HD'.
  apply Rlt_0_minus.
  replace ((1 + n_1 * k + n_2 * k ^ 2) / (1 + d_1 * k + d_2 * k ^ 2)
           - (1 + n_1 * k' + n_2 * k' ^ 2) / (1 + d_1 * k' + d_2 * k' ^ 2))
    with ((k' - k)
          * ((d_1 - n_1) + (d_2 - n_2) * (k + k')
             + (n_1 * d_2 - n_2 * d_1) * (k * k'))
          / ((1 + d_1 * k + d_2 * k ^ 2) * (1 + d_1 * k' + d_2 * k' ^ 2)))
    by (field; split; lra).
  apply Rdiv_lt_0_compat; [| apply Rmult_lt_0_compat; assumption].
  apply Rmult_lt_0_compat; [lra |].
  assert (0 <= (d_2 - n_2) * (k + k')) by (apply Rmult_le_pos; lra).
  assert (0 <= (n_1 * d_2 - n_2 * d_1) * (k * k')).
  { apply Rmult_le_pos; [lra | apply Rmult_le_pos; lra]. }
  lra.
Qed.

Lemma Momega_merger_closed_form (m1 m2 chi1 chi2 lambda1 lambda2 kappa : R) :
  0 < gt -> 0 < m1 -> 0 < m2 ->
  Momega_merger (m1, m2, chi1, chi2, lambda1, lambda2) kappa
  = 0.3586 * sqrt (m2 / m1)
    * ((1 + 3.35411203e-2 * kappa + 4.31460284e-5 * kappa ^ 2)
       / (1 + 7.54224145e-2 * kappa + 2.23626859e-4 * kappa ^ 2)).
Proof.
  intros Hgt Hm1 Hm2. unfold Momega_merger.
  replace (m2 * gt / (m1 * gt + m2 * gt) / (m1 * gt / (m1 * gt + m2 * gt)))
    with (m2 / m1); [reflexivity |].
  assert (0 < m1 * gt + m2 * gt) by nra.
  field. repeat split; lra.
Qed.

(** C8. For fixed positive masses the dimensionless angular merger
    frequency [Momega_merger] of [_get_merger_frequency] is the fit
    [Q_0 * (1 + n_1 k + n_2 k^2) / (1 + d_1 k + d_2 k^2)] and is strictly
    decreasing in kappa on [kappa >= 0]; so is the frequency in Hz that
    [_get_merger_frequency] returns. *)
Theorem merger_frequency_decreasing_in_kappa
    (m1 m2 chi1 chi2 lambda1 lambda2 kappa kappa' : R) :
  0 < gt -> 0 < m1 -> 0 < m2 ->
  0 <= kappa -> kappa < kappa' ->
  let theta : Theta := (m1, m2, chi1, chi2, lambda1, lambda2) in
  Momega_merger theta kappa
  = 0.3586 * sqrt (m2 / m1)
    * ((1 + 3.35411203e-2 * kappa + 4.31460284e-5 * kappa ^ 2)
       / (1 + 7.54224145e-2 * kappa + 2.23626859e-4 * kappa ^ 2))
  /\ Momega_merger theta kappa' < Momega_merger theta kappa
  /\ _get_merger_frequency theta (Some kappa')
     < _get_merger_frequency theta (Some kappa).
Proof.
  intros Hgt Hm1 Hm2 Hk Hkk' theta.
  assert (Hdec : Momega_merger theta kappa' < Momega_merger theta kappa).
  { unfold theta. rewrite !Momega_merger_closed_form by assumption.
    apply Rmult_lt_compat_l.
    - apply Rmult_lt_0_compat; [lra |].
      apply sqrt_lt_R0. now apply Rdiv_lt_0_compat.
    - apply rational_fit_decreasing; lra. }
  split; [now apply Momega_merger_closed_form | split; [exact Hdec |]].
  unfold _get_merger_frequency, theta. fold theta.
  assert (HM : 0 < m1 * gt + m2 * gt) by nra.
  assert (Hpi : 0 < 2 * PI) by (pose proof PI_RGT_0; lra).
  unfold Rdiv.
  apply Rmult_lt_compat_r; [now apply Rinv_0_lt_compat |].
  apply Rmult_lt_compat_r; [now apply Rinv_0_lt_compat |].
  exact Hdec.
Qed.

(* ================================================================== *)
(** ** The tidal amplitude *)

Lemma Rpower_le_1 (x a : R) : 0 < x <= 1 -> 0 <= a -> Rpower x a <= 1.
Proof.
  intros [Hx0 Hx1] Ha. unfold Rpower.
  assert (Hln : ln x <= 0).
  { rewrite <- ln_1. destruct Hx1 as [Hlt | ->]; [| lra].
    left. now apply ln_increasing. }
  assert (Hz : a * ln x <= 0).
  { replace 0 with (a * 0) by ring. now apply Rmult_le_compat_l. }
  rewrite <- exp_0. destruct Hz as [Hlt | ->]; [| lra].
  left. now apply exp_increasing.
Qed.

Lemma Rpower_gt_0 (x a : R) : 0 < Rpower x a.
Proof. apply exp_pos. Qed.

(** The code's amplitude is the specification's formula evaluated at the
    total mass multiplied by [gt] twice. *)
Lemma get_tidal_amplitude_pointwise
    (f : list R) (m1 m2 chi1 chi2 lambda1 lambda2 kappa dL : R) :
  get_tidal_amplitude f (m1, m2, chi1, chi2, lambda1, lambda2) kappa dL
  = map (tidal_amplitude_at ((m1 + m2) * gt * gt) kappa dL) f.
Proof.
  unfold get_tidal_amplitude. apply map_ext. intros a.
  unfold tidal_amplitude_at, pade_amplitude.
  replace ((m1 * gt + m2 * gt) * gt) with ((m1 + m2) * gt * gt) by ring.
  unfold Rdiv. ring.
Qed.

Lemma pade_amplitude_upper (x : R) :
  0 < x <= 1 -> pade_amplitude x <= Rpower x 3.25 * 2525.
Proof.
  intros [Hx0 Hx1]. unfold pade_amplitude. rewrite !fpow_pos by assumption.
  pose proof (Rpower_le_1 x 2.89 (conj Hx0 Hx1) ltac:(lra)) as Hp.
  pose proof (Rpower_gt_0 x 2.89) as Hp0.
  pose proof (Rpower_gt_0 x 3.25) as Hq0.
  assert (Hx4 : 0 <= x ^ 4) by (apply pow_le; lra).
  apply Rmult_le_compat_l; [lra |].
  apply Rle_trans with
    ((1 + 4.157407407407407 * x + 2519.111111111111 * Rpower x 2.89) / 1).
  - unfold Rdiv. apply Rmult_le_compat_l; [lra |].
    apply Rinv_le_contravar; lra.
  - lra.
Qed.

Lemma pade_amplitude_lower (x : R) :
  0 < x <= 1 -> Rpower x 3.25 / 13479 <= pade_amplitude x.
Proof.
  intros [Hx0 Hx1]. unfold pade_amplitude. rewrite !fpow_pos by assumption.
  pose proof (Rpower_gt_0 x 2.89) as Hp0.
  pose proof (Rpower_gt_0 x 3.25) as Hq0.
  assert (Hx4 : 0 <= x ^ 4) by (apply pow_le; lra).
  assert (Hx41 : x ^ 4 <= 1).
  { replace 1 with (1 ^ 4) by ring. apply pow_incr. lra. }
  unfold Rdiv at 1. apply Rmult_le_compat_l; [lra |].
  apply Rle_trans with
    ((1 + 4.157407407407407 * x + 2519.111111111111 * Rpower x 2.89)
     / 13479).
  - unfold Rdiv. rewrite <- (Rmult_1_l (/ 13479)) at 1.
    apply Rmult_le_compat_r; [| lra].
    left. apply Rinv_0_lt_compat. lra.
  - unfold Rdiv. apply Rmult_le_compat_l; [lra |].
    apply Rinv_le_contravar; lra.
Qed.

(** Multiplying the argument of the Pade variable by a small [gt] makes the
    Pade factor strictly smaller. *)
Lemma pade_amplitude_rescaled_lt (A : R) :
  0 < gt <= 1e-4 -> 0 < A <= 1 ->
  pade_amplitude (fpow (A * gt) (2 / 3)) < pade_amplitude (fpow A (2 / 3)).
Proof.
  intros [Hg0 Hg1] [HA0 HA1].
  assert (HAg : 0 < A * gt) by (apply Rmult_lt_0_compat; assumption).
  rewrite !fpow_pos by assumption.
  set (x := Rpower A (2 / 3)).
  set (r := Rpower gt (2 / 3)).
  assert (Hxc : Rpower (A * gt) (2 / 3) = x * r).
  { unfold x, r. now rewrite Rpower_mult_distr. }
  rewrite Hxc.
  assert (Hx : 0 < x <= 1).
  { split; [apply Rpower_gt_0 | apply Rpower_le_1; lra]. }
  assert (Hr : 0 < r <= 1).
  { split; [apply Rpower_gt_0 | apply Rpower_le_1; lra]. }
  assert (Hxr : 0 < x * r <= 1).
  { split; [apply Rmult_lt_0_compat; lra |].
    replace 1 with (1 * 1) by ring. apply Rmult_le_compat; lra. }
  apply Rle_lt_trans with (Rpower (x * r) 3.25 * 2525);
    [now apply pade_amplitude_upper |].
  apply Rlt_le_trans with (Rpower x 3.25 / 13479);
    [| now apply pade_amplitude_lower].
  rewrite <- Rpower_mult_distr by lra.
  assert (Hr2 : Rpower r 3.25 <= gt ^ 2).
  { unfold r. rewrite Rpower_mult.
    replace (2 / 3 * 3.25) with (INR 2 + 1 / 6) by (simpl; lra).
    rewrite Rpower_plus, Rpower_pow by assumption.
    rewrite <- (Rmult_1_r (gt ^ 2)) at 2.
    apply Rmult_le_compat_l; [apply pow_le; lra |].
    apply Rpower_le_1; lra. }
  assert (Hg2 : gt ^ 2 <= 1e-8).
  { replace 1e-8 with (1e-4 ^ 2) by lra. apply pow_incr. lra. }
  pose proof (Rpower_gt_0 x 3.25) as Hq0.
  pose proof (Rpower_gt_0 r 3.25) as Hr0.
  assert (Hstep : Rpower x 3.25 * Rpower r 3.25 * 2525
                  <= Rpower x 3.25 * (1e-8 * 2525)).
  { rewrite Rmult_assoc. apply Rmult_le_compat_l; [lra |].
    apply Rmult_le_compat_r; lra. }
  apply Rle_lt_trans with (1 := Hstep).
  unfold Rdiv. apply Rmult_lt_compat_l; lra.
Qed.


Lemma tidal_amplitude_at_differs (M kappa dL fk : R) :
  0 < gt <= 1e-4 -> 0 < m_per_Mpc -> 0 < C -> 0 < dL -> kappa <> 0 ->
  0 < M -> 0 < fk -> PI * M * fk <= 1 ->
  tidal_amplitude_at (M * gt) kappa dL fk <> tidal_amplitude_at M kappa dL fk.
Proof.
  intros Hgt Hmpc HC HdL Hk HM Hf Hle Heq.
  assert (HA : 0 < PI * M * fk).
  { pose proof PI_RGT_0.
    apply Rmult_lt_0_compat; [apply Rmult_lt_0_compat |]; assumption. }
  pose proof (pade_amplitude_rescaled_lt (PI * M * fk) Hgt (conj HA Hle))
    as Hlt.
  unfold tidal_amplitude_at in Heq.
  replace (PI * (M * gt) * fk) with (PI * M * fk * gt) in Heq by ring.
  assert (Hds : 0 < dL * m_per_Mpc / C).
  { apply Rdiv_lt_0_compat; [apply Rmult_lt_0_compat |]; assumption. }
  unfold Rdiv at 1 3 in Heq.
  apply Rmult_eq_reg_r in Heq;
    [| apply Rinv_neq_0_compat; lra].
  apply Rmult_eq_reg_l in Heq; [lra |].
  intros H9. apply Hk. lra.
Qed.

(** C4. The value returned by [get_tidal_amplitude] is [ampT / dist_s] with
    the stated Pade formula, constants and distance, but its Pade variable
    is built from the total mass multiplied by [gt] twice,
    [M_sec = (m1 + m2) gt gt]: the mass is converted to seconds once when
    [M_s] is formed and once more in [M_sec = M_s * gt].  For a [gt] as small
    as the solar mass in seconds and a sample with [PI (m1 + m2) gt f <= 1],
    the returned amplitude differs from the one of the specification,
    whose total mass is converted once. *)
Theorem tidal_amplitude_converts_the_mass_twice
    (m1 m2 chi1 chi2 lambda1 lambda2 kappa dL fk : R) :
  0 < gt <= 1e-4 -> 0 < m_per_Mpc -> 0 < C -> 0 < dL -> kappa <> 0 ->
  0 < m1 + m2 -> 0 < fk -> PI * ((m1 + m2) * gt) * fk <= 1 ->
  let theta : Theta := (m1, m2, chi1, chi2, lambda1, lambda2) in
  get_tidal_amplitude [fk] theta kappa dL
  = [tidal_amplitude_at ((m1 + m2) * gt * gt) kappa dL fk]
  /\ spec_tidal_amplitude [fk] theta kappa dL
     = [tidal_amplitude_at ((m1 + m2) * gt) kappa dL fk]
  /\ get_tidal_amplitude [fk] theta kappa dL
     <> spec_tidal_amplitude [fk] theta kappa dL.
Proof.
  intros Hgt Hmpc HC HdL Hk HM Hf Hle theta.
  assert (Hcode : get_tidal_amplitude [fk] theta kappa dL
                  = [tidal_amplitude_at ((m1 + m2) * gt * gt) kappa dL fk]).
  { unfold theta. now rewrite get_tidal_amplitude_pointwise. }
  split; [exact Hcode | split; [reflexivity |]].
  rewrite Hcode. unfold theta, spec_tidal_amplitude; simpl.
  intros Heq. injection Heq as Heq. revert Heq.
  apply tidal_amplitude_at_differs; try assumption.
  apply Rmult_lt_0_compat; lra.
Qed.

(* ================================================================== *)
(** ** Further properties of the tidal coupling *)

Lemma Rleb_false (x y : R) : y < x -> Rleb x y = false.
Proof.
  intros H; unfold Rleb; destruct (Rle_dec x y); [lra | reflexivity].
Qed.

(** [get_kappa] written in the component masses alone. *)
Lemma get_kappa_in_solar_masses (m1 m2 chi1 chi2 lambda1 lambda2 : R) :
  gt <> 0 -> 0 < m1 -> 0 < m2 ->
  get_kappa (m1, m2, chi1, chi2, lambda1, lambda2)
  = 3 / 13 * ((1 + 12 * m2 / m1) * (m1 / (m1 + m2)) ^ 5 * lambda1
              + (1 + 12 * m1 / m2) * (m2 / (m1 + m2)) ^ 5 * lambda2).
Proof.
  intros Hgt Hm1 Hm2. unfold get_kappa.
  assert (HM : m1 * gt + m2 * gt <> 0).
  { replace (m1 * gt + m2 * gt) with ((m1 + m2) * gt) by ring.
    apply Rmult_integral_contrapositive_currified; [lra | exact Hgt]. }
  replace (m1 * gt / (m1 * gt + m2 * gt)) with (m1 / (m1 + m2))
    by (field; split; [exact HM | lra]).
  replace (m2 * gt / (m1 * gt + m2 * gt)) with (m2 / (m1 + m2))
    by (field; split; [exact HM | lra]).
  reflexivity.
Qed.

(** X1. The value of [get_kappa] depends neither on the unit constant [gt]
    nor on the spins: for positive masses it is
    [3/13 ((1 + 12 m2/m1) (m1/M)^5 lambda1 + (1 + 12 m1/m2) (m2/M)^5 lambda2)]
    with [M = m1 + m2]. *)
Theorem kappa_free_of_units_and_spins
    (m1 m2 chi1 chi2 lambda1 lambda2 : R) :
  gt <> 0 -> 0 < m1 -> 0 < m2 ->
  get_kappa (m1, m2, chi1, chi2, lambda1, lambda2)
  = 3 / 13 * ((1 + 12 * m2 / m1) * (m1 / (m1 + m2)) ^ 5 * lambda1
              + (1 + 12 * m1 / m2) * (m2 / (m1 + m2)) ^ 5 * lambda2).
Proof. apply get_kappa_in_solar_masses. Qed.

Lemma kappa_weight_pos (a b : R) :
  0 < a -> 0 < b -> 0 < (1 + 12 * b / a) * (a / (a + b)) ^ 5.
Proof.
  intros Ha Hb. apply Rmult_lt_0_compat.
  - assert (0 < 12 * b / a).
    { apply Rdiv_lt_0_compat; lra. }
    lra.
  - apply pow_lt. apply Rdiv_lt_0_compat; lra.
Qed.

(** X2. For positive masses and deformabilities that are not negative,
    [get_kappa] is not negative, and it is positive as soon as one of the
    deformabilities is. *)
Theorem kappa_nonnegative (m1 m2 chi1 chi2 lambda1 lambda2 : R) :
  gt <> 0 -> 0 < m1 -> 0 < m2 -> 0 <= lambda1 -> 0 <= lambda2 ->
  0 <= get_kappa (m1, m2, chi1, chi2, lambda1, lambda2)
  /\ (0 < lambda1 \/ 0 < lambda2 ->
      0 < get_kappa (m1, m2, chi1, chi2, lambda1, lambda2)).
Proof.
  intros Hgt Hm1 Hm2 Hl1 Hl2.
  rewrite get_kappa_in_solar_masses by assumption.
  pose proof (kappa_weight_pos m1 m2 Hm1 Hm2) as Hw1.
  pose proof (kappa_weight_pos m2 m1 Hm2 Hm1) as Hw2.
  replace (m2 + m1) with (m1 + m2) in Hw2 by ring.
  set (w1 := (1 + 12 * m2 / m1) * (m1 / (m1 + m2)) ^ 5) in *.
  set (w2 := (1 + 12 * m1 / m2) * (m2 / (m1 + m2)) ^ 5) in *.
  assert (H1 : 0 <= w1 * lambda1) by (apply Rmult_le_pos; lra).
  assert (H2 : 0 <= w2 * lambda2) by (apply Rmult_le_pos; lra).
  split; [lra |].
  intros [Hp | Hp].
  - assert (0 < w1 * lambda1) by (apply Rmult_lt_0_compat; lra). lra.
  - assert (0 < w2 * lambda2) by (apply Rmult_lt_0_compat; lra). lra.
Qed.

(** X3. For two bodies of equal mass [get_kappa] is [3/32] of the sum of
    the two deformabilities, whatever the common mass. *)
Theorem kappa_equal_masses (m chi1 chi2 lambda1 lambda2 : R) :
  gt <> 0 -> 0 < m ->
  get_kappa (m, m, chi1, chi2, lambda1, lambda2)
  = 3 / 32 * (lambda1 + lambda2).
Proof.
  intros Hgt Hm. rewrite get_kappa_in_solar_masses by assumption.
  field. lra.
Qed.

(* ================================================================== *)
(** ** Further properties of the tidal phase and amplitude *)

(** X4. The tidal phase and the tidal amplitude are proportional to the
    kappa they are given: each is kappa times its value at [kappa = 1]. *)
Theorem tidal_terms_proportional_to_kappa
    (f : list R) (theta : Theta) (kappa dL : R) :
  get_tidal_phase f theta kappa
  = map (Rmult kappa) (get_tidal_phase f theta 1)
  /\ get_tidal_amplitude f theta kappa dL
     = map (Rmult kappa) (get_tidal_amplitude f theta 1 dL).
Proof.
  unpack theta. unfold get_tidal_phase, get_tidal_amplitude.
  rewrite !map_map. split; apply map_ext; intros a.
  - ring.
  - unfold Rdiv. ring.
Qed.


Lemma pade_amplitude_pos (x : R) : 0 < x -> 0 < pade_amplitude x.
Proof.
  intros Hx. unfold pade_amplitude. rewrite !fpow_pos by assumption.
  pose proof (exp_pos (3.25 * ln x)) as H1.
  pose proof (exp_pos (2.89 * ln x)) as H2.
  fold (Rpower x 3.25) in H1. fold (Rpower x 2.89) in H2.
  assert (Hx4 : 0 < x ^ 4) by (apply pow_lt; exact Hx).
  apply Rmult_lt_0_compat; [exact H1 |].
  apply Rdiv_lt_0_compat.
  - assert (0 < 4.157407407407407 * x) by (apply Rmult_lt_0_compat; lra).
    assert (0 < 2519.111111111111 * Rpower x 2.89)
      by (apply Rmult_lt_0_compat; lra).
    lra.
  - assert (0 < 13477.8073677 * x ^ 4) by (apply Rmult_lt_0_compat; lra).
    lra.
Qed.

(** X6. For a positive kappa the tidal amplitude is negative at every
    sample of a positive frequency grid (masses, distance and unit
    constants positive). *)
Theorem tidal_amplitude_negative
    (f : list R) (m1 m2 chi1 chi2 lambda1 lambda2 kappa dL : R) :
  0 < gt -> 0 < m_per_Mpc -> 0 < C -> 0 < m1 + m2 -> 0 < dL -> 0 < kappa ->
  Forall (fun x => 0 < x) f ->
  Forall (fun a => a < 0)
    (get_tidal_amplitude f (m1, m2, chi1, chi2, lambda1, lambda2) kappa dL).
Proof.
  intros Hgt Hmpc HC HM HdL Hk Hf.
  rewrite get_tidal_amplitude_pointwise.
  apply Forall_map. apply Forall_impl with (2 := Hf). intros fk Hfk.
  unfold tidal_amplitude_at.
  assert (HA : 0 < PI * ((m1 + m2) * gt * gt) * fk).
  { pose proof PI_RGT_0 as Hpi. simpl in Hfk.
    apply Rmult_lt_0_compat; [| exact Hfk].
    apply Rmult_lt_0_compat; [exact Hpi |].
    apply Rmult_lt_0_compat; [| exact Hgt].
    apply Rmult_lt_0_compat; [exact HM | exact Hgt]. }
  pose proof (pade_amplitude_pos (fpow (PI * ((m1 + m2) * gt * gt) * fk) (2 / 3)))
    as Hp.
  rewrite fpow_pos in Hp by assumption.
  specialize (Hp (exp_pos _)).
  rewrite fpow_pos by assumption.
  assert (Hds : 0 < dL * m_per_Mpc / C).
  { apply Rdiv_lt_0_compat; [apply Rmult_lt_0_compat |]; assumption. }
  set (P := pade_amplitude _) in *.
  assert (Hprod : 0 < 9 * kappa * P).
  { apply Rmult_lt_0_compat; [lra | exact Hp]. }
  assert (Hq : 0 < 9 * kappa * P / (dL * m_per_Mpc / C)).
  { apply Rdiv_lt_0_compat; assumption. }
  replace (- 9 * kappa * P / (dL * m_per_Mpc / C))
    with (- (9 * kappa * P / (dL * m_per_Mpc / C)))
    by (unfold Rdiv; ring).
  lra.
Qed.

(** X7. The tidal amplitude falls off as the inverse of the distance, and
    it depends on the intrinsic parameters only through the total mass. *)
Theorem tidal_amplitude_distance_and_total_mass
    (f : list R) (m1 m2 chi1 chi2 lambda1 lambda2 : R)
    (m1' m2' chi1' chi2' lambda1' lambda2' kappa dL c : R) :
  0 < m_per_Mpc -> 0 < C -> 0 < dL -> 0 < c -> m1 + m2 = m1' + m2' ->
  get_tidal_amplitude f (m1, m2, chi1, chi2, lambda1, lambda2) kappa (c * dL)
  = map (fun a => a / c)
      (get_tidal_amplitude f (m1, m2, chi1, chi2, lambda1, lambda2) kappa dL)
  /\ get_tidal_amplitude f (m1', m2', chi1', chi2', lambda1', lambda2') kappa dL
     = get_tidal_amplitude f (m1, m2, chi1, chi2, lambda1, lambda2) kappa dL.
Proof.
  intros Hmpc HC HdL Hc HM.
  rewrite !get_tidal_amplitude_pointwise. rewrite <- HM. split; [| reflexivity].
  rewrite map_map. apply map_ext. intros a.
  unfold tidal_amplitude_at. field. repeat split; lra.
Qed.

(* ================================================================== *)
(** ** Further properties of the merger frequency *)

Lemma merger_ratio_bounds (kappa : R) :
  0 <= kappa ->
  4.31460284e-5 / 2.23626859e-4
  < (1 + 3.35411203e-2 * kappa + 4.31460284e-5 * kappa ^ 2)
    / (1 + 7.54224145e-2 * kappa + 2.23626859e-4 * kappa ^ 2)
  <= 1.
Proof.
  intros Hk.
  assert (Hk2 : 0 <= kappa ^ 2) by apply pow2_ge_0.
  assert (HD : 0 < 1 + 7.54224145e-2 * kappa + 2.23626859e-4 * kappa ^ 2)
    by nra.
  split.
  - apply Rlt_0_minus.
    replace ((1 + 3.35411203e-2 * kappa + 4.31460284e-5 * kappa ^ 2)
             / (1 + 7.54224145e-2 * kappa + 2.23626859e-4 * kappa ^ 2)
             - 4.31460284e-5 / 2.23626859e-4)
      with (((2.23626859e-4 - 4.31460284e-5)
             + (2.23626859e-4 * 3.35411203e-2
                - 4.31460284e-5 * 7.54224145e-2) * kappa)
            / (2.23626859e-4
               * (1 + 7.54224145e-2 * kappa + 2.23626859e-4 * kappa ^ 2)))
      by (field; split; lra).
    apply Rdiv_lt_0_compat; [| apply Rmult_lt_0_compat; lra].
    assert (0 <= (2.23626859e-4 * 3.35411203e-2
                  - 4.31460284e-5 * 7.54224145e-2) * kappa)
      by (apply Rmult_le_pos; lra).
    lra.
  - apply Rmult_le_reg_r
      with (1 + 7.54224145e-2 * kappa + 2.23626859e-4 * kappa ^ 2);
      [exact HD |].
    unfold Rdiv. rewrite Rmult_assoc, Rinv_l by lra. nra.
Qed.

Lemma Q_0_pos (m1 m2 : R) : 0 < m1 -> 0 < m2 -> 0 < 0.3586 * sqrt (m2 / m1).
Proof.
  intros Hm1 Hm2. apply Rmult_lt_0_compat; [lra |].
  apply sqrt_lt_R0. now apply Rdiv_lt_0_compat.
Qed.

(** X8. For positive masses and a kappa that is not negative, the
    dimensionless merger frequency lies between [Q_0 n_2 / d_2] (excluded)
    and [Q_0 = 0.3586 sqrt(m2/m1)] (its value at [kappa = 0]), and the
    frequency in Hz that [_get_merger_frequency] returns is positive. *)
Theorem merger_frequency_bounds
    (m1 m2 chi1 chi2 lambda1 lambda2 kappa : R) :
  0 < gt -> 0 < m1 -> 0 < m2 -> 0 <= kappa ->
  let theta : Theta := (m1, m2, chi1, chi2, lambda1, lambda2) in
  let Q_0 := 0.3586 * sqrt (m2 / m1) in
  Momega_merger theta 0 = Q_0
  /\ Q_0 * (4.31460284e-5 / 2.23626859e-4) < Momega_merger theta kappa
  /\ Momega_merger theta kappa <= Q_0
  /\ 0 < _get_merger_frequency theta (Some kappa).
Proof.
  intros Hgt Hm1 Hm2 Hk theta Q_0.
  pose proof (Q_0_pos m1 m2 Hm1 Hm2) as HQ. fold Q_0 in HQ.
  pose proof (merger_ratio_bounds kappa Hk) as [Hlo Hhi].
  assert (Hcf : Momega_merger theta kappa
                = Q_0 * ((1 + 3.35411203e-2 * kappa + 4.31460284e-5 * kappa ^ 2)
                         / (1 + 7.54224145e-2 * kappa
                            + 2.23626859e-4 * kappa ^ 2))).
  { unfold theta, Q_0. now apply Momega_merger_closed_form. }
  assert (Hlow : Q_0 * (4.31460284e-5 / 2.23626859e-4)
                 < Momega_merger theta kappa).
  { rewrite Hcf. now apply Rmult_lt_compat_l. }
  split; [| split; [exact Hlow | split]].
  - unfold theta. rewrite Momega_merger_closed_form by assumption.
    fold Q_0. field.
  - rewrite Hcf. rewrite <- (Rmult_1_r Q_0) at 2.
    apply Rmult_le_compat_l; lra.
  - unfold _get_merger_frequency, theta. fold theta.
    assert (HM : 0 < m1 * gt + m2 * gt) by nra.
    assert (Hpi : 0 < 2 * PI) by (pose proof PI_RGT_0; lra).
    assert (Hpos : 0 < Momega_merger theta kappa).
    { apply Rlt_trans with (2 := Hlow).
      apply Rmult_lt_0_compat; [exact HQ | lra]. }
    apply Rdiv_lt_0_compat; [apply Rdiv_lt_0_compat |]; assumption.
Qed.

(** X9. The merger frequency is not symmetric in the two bodies: for
    positive masses the exchange of the labels leaves [Momega_merger]
    unchanged exactly when the masses are equal. *)
Theorem merger_frequency_exchange
    (m1 m2 chi1 chi2 lambda1 lambda2 kappa : R) :
  0 < gt -> 0 < m1 -> 0 < m2 -> 0 <= kappa ->
  Momega_merger (m2, m1, chi2, chi1, lambda2, lambda1) kappa
  = Momega_merger (m1, m2, chi1, chi2, lambda1, lambda2) kappa
  <-> m1 = m2.
Proof.
  intros Hgt Hm1 Hm2 Hk.
  rewrite !Momega_merger_closed_form by assumption.
  pose proof (merger_ratio_bounds kappa Hk) as [Hlo _].
  set (r := (1 + 3.35411203e-2 * kappa + 4.31460284e-5 * kappa ^ 2)
            / (1 + 7.54224145e-2 * kappa + 2.23626859e-4 * kappa ^ 2)) in *.
  assert (Hr : 0 < r) by lra.
  split.
  - intros Heq.
    apply Rmult_eq_reg_r in Heq; [| lra].
    apply Rmult_eq_reg_l in Heq; [| lra].
    assert (H12 : 0 < m1 / m2) by (now apply Rdiv_lt_0_compat).
    assert (H21 : 0 < m2 / m1) by (now apply Rdiv_lt_0_compat).
    apply sqrt_inj in Heq; [| lra | lra].
    assert (Hsq : m1 * m1 = m2 * m2).
    { apply (f_equal (fun v => v * (m1 * m2))) in Heq.
      replace (m1 / m2 * (m1 * m2)) with (m1 * m1) in Heq by (field; lra).
      replace (m2 / m1 * (m1 * m2)) with (m2 * m2) in Heq by (field; lra).
      exact Heq. }
    nra.
  - intros ->. reflexivity.
Qed.

(** X10. At a fixed mass ratio and kappa, [Momega_merger] does not change
    when both masses are multiplied by the same positive factor, and the
    frequency in Hz is divided by that factor. *)
Theorem merger_frequency_mass_scaling
    (m1 m2 chi1 chi2 lambda1 lambda2 kappa c : R) :
  0 < gt -> 0 < m1 -> 0 < m2 -> 0 < c ->
  Momega_merger (c * m1, c * m2, chi1, chi2, lambda1, lambda2) kappa
  = Momega_merger (m1, m2, chi1, chi2, lambda1, lambda2) kappa
  /\ _get_merger_frequency (c * m1, c * m2, chi1, chi2, lambda1, lambda2)
       (Some kappa)
     = _get_merger_frequency (m1, m2, chi1, chi2, lambda1, lambda2)
         (Some kappa) / c.
Proof.
  intros Hgt Hm1 Hm2 Hc.
  assert (Hcm1 : 0 < c * m1) by (now apply Rmult_lt_0_compat).
  assert (Hcm2 : 0 < c * m2) by (now apply Rmult_lt_0_compat).
  assert (HMo : Momega_merger (c * m1, c * m2, chi1, chi2, lambda1, lambda2)
                  kappa
                = Momega_merger (m1, m2, chi1, chi2, lambda1, lambda2) kappa).
  { rewrite !Momega_merger_closed_form by assumption.
    replace (c * m2 / (c * m1)) with (m2 / m1) by (field; lra).
    reflexivity. }
  split; [exact HMo |].
  unfold _get_merger_frequency. rewrite HMo.
  assert (HM : 0 < m1 * gt + m2 * gt) by nra.
  replace (c * m1 * gt + c * m2 * gt) with (c * (m1 * gt + m2 * gt)) by ring.
  set (M_s := m1 * gt + m2 * gt) in *.
  pose proof PI_RGT_0.
  field. repeat split; lra.
Qed.

(** X11. When no kappa is passed, [_get_merger_frequency] uses the value of
    [get_kappa]; for zero deformabilities the frequency it returns is
    [0.3586 sqrt(m2/m1) / ((m1 + m2) gt) / (2 PI)]. *)
Theorem merger_frequency_default_kappa
    (m1 m2 chi1 chi2 lambda1 lambda2 : R) :
  0 < gt -> 0 < m1 -> 0 < m2 ->
  _get_merger_frequency (m1, m2, chi1, chi2, lambda1, lambda2) None
  = _get_merger_frequency (m1, m2, chi1, chi2, lambda1, lambda2)
      (Some (get_kappa (m1, m2, chi1, chi2, lambda1, lambda2)))
  /\ _get_merger_frequency (m1, m2, chi1, chi2, 0, 0) None
     = 0.3586 * sqrt (m2 / m1) / ((m1 + m2) * gt) / (2 * PI).
Proof.
  intros Hgt Hm1 Hm2. split; [reflexivity |].
  unfold _get_merger_frequency.
  rewrite get_kappa_zero_deformability.
  rewrite Momega_merger_closed_form by assumption.
  assert (HM : 0 < m1 * gt + m2 * gt) by nra.
  pose proof PI_RGT_0.
  field. repeat split; lra.
Qed.

(* ================================================================== *)
(** ** Further properties of the quadrupole and octupole fit *)

(** X12. Above 1 the fit is the universal relation in [ln lambda]; on
    [(1, e]] the quadrupole parameter it gives is below [exp 0.34 - 1],
    while at 1 the polynomial branch gives more than [exp 1.21 - 1]: the
    quadrupole parameter drops across the junction at 1. *)
Theorem quadparam_universal_branch (lambda_ : R) :
  1 < lambda_ ->
  log_quadparam lambda_
  = 0.1940 + 0.09163 * ln lambda_ + 0.04812 * ln lambda_ ^ 2
    - 0.004286 * ln lambda_ ^ 3 + 0.00012450 * ln lambda_ ^ 4
  /\ (lambda_ <= exp 1 ->
      fst (_compute_quadparam_octparam lambda_) < exp 0.34 - 1
      /\ exp 1.21 - 1 < fst (_compute_quadparam_octparam 1)
      /\ fst (_compute_quadparam_octparam lambda_)
         < fst (_compute_quadparam_octparam 1)).
Proof.
  intros Hl.
  assert (Hbr : log_quadparam lambda_
                = 0.1940 + 0.09163 * ln lambda_ + 0.04812 * ln lambda_ ^ 2
                  - 0.004286 * ln lambda_ ^ 3 + 0.00012450 * ln lambda_ ^ 4).
  { unfold log_quadparam. rewrite (Rleb_false lambda_ 1 Hl).
    rewrite andb_false_r. reflexivity. }
  split; [exact Hbr |].
  intros Hle.
  assert (HL0 : 0 < ln lambda_).
  { rewrite <- ln_1. apply ln_increasing; lra. }
  assert (HL1 : ln lambda_ <= 1).
  { rewrite <- (ln_exp 1). destruct Hle as [Hlt | ->]; [| lra].
    left. apply ln_increasing; lra. }
  set (L := ln lambda_) in *.
  assert (HL2 : 0 <= L ^ 2 <= 1).
  { split; [apply pow2_ge_0 |].
    replace 1 with (1 ^ 2) by ring. apply pow_incr. lra. }
  assert (HL3 : 0 <= L ^ 3) by (apply pow_le; lra).
  assert (HL4 : 0 <= L ^ 4 <= 1).
  { split; [apply pow_le; lra |].
    replace 1 with (1 ^ 4) by ring. apply pow_incr. lra. }
  assert (Hup : log_quadparam lambda_ < 0.34) by (rewrite Hbr; lra).
  assert (H1 : log_quadparam 1 = 1.2140962829562332).
  { unfold log_quadparam.
    rewrite (Rleb_true 0 1), (Rleb_true 1 1) by lra. simpl. lra. }
  unfold _compute_quadparam_octparam; simpl. rewrite H1.
  assert (Ha : exp (log_quadparam lambda_) < exp 0.34)
    by (now apply exp_increasing).
  assert (Hb : exp 0.34 < exp 1.21) by (apply exp_increasing; lra).
  assert (Hc : exp 1.21 < exp 1.2140962829562332)
    by (apply exp_increasing; lra).
  repeat split; lra.
Qed.


(* ================================================================== *)
(** ** The Planck taper *)

Lemma heaviside_pos (x h0 : R) : 0 < x -> heaviside x h0 = 1.
Proof.
  intros H. unfold heaviside.
  destruct (Rlt_dec x 0); [lra |]. destruct (Rlt_dec 0 x); [reflexivity | lra].
Qed.

Lemma heaviside_neg (x h0 : R) : x < 0 -> heaviside x h0 = 0.
Proof.
  intros H. unfold heaviside. destruct (Rlt_dec x 0); [reflexivity | lra].
Qed.

(** The exponent of the transition formula. *)
Lemma planck_exponent_decreasing (t1 t2 t t' : R) :
  t1 < t -> t < t' -> t' < t2 ->
  (t2 - t1) / (t' - t1) + (t2 - t1) / (t' - t2)
  < (t2 - t1) / (t - t1) + (t2 - t1) / (t - t2).
Proof.
  intros H1 H2 H3.
  apply Rlt_0_minus.
  replace ((t2 - t1) / (t - t1) + (t2 - t1) / (t - t2)
           - ((t2 - t1) / (t' - t1) + (t2 - t1) / (t' - t2)))
    with ((t2 - t1) * (t' - t) / ((t - t1) * (t' - t1))
          + (t2 - t1) * (t' - t) / ((t2 - t) * (t2 - t')))
    by (field; repeat split; lra).
  assert (Hn : 0 < (t2 - t1) * (t' - t)) by (apply Rmult_lt_0_compat; lra).
  assert (0 < (t2 - t1) * (t' - t) / ((t - t1) * (t' - t1))).
  { apply Rdiv_lt_0_compat; [exact Hn | apply Rmult_lt_0_compat; lra]. }
  assert (0 < (t2 - t1) * (t' - t) / ((t2 - t) * (t2 - t'))).
  { apply Rdiv_lt_0_compat; [exact Hn | apply Rmult_lt_0_compat; lra]. }
  lra.
Qed.

Lemma planck_middle_increasing (z z' : R) :
  z' < z -> 1 / (exp z + 1) < 1 / (exp z' + 1).
Proof.
  intros Hz. pose proof (exp_pos z). pose proof (exp_pos z').
  pose proof (exp_increasing _ _ Hz).
  unfold Rdiv. rewrite !Rmult_1_l.
  apply Rinv_lt_contravar; [apply Rmult_lt_0_compat; lra | lra].
Qed.

Lemma _planck_taper_in_transition (ts : list R) (t1 t2 : R) :
  Forall (fun t => t1 < t < t2) ts ->
  _planck_taper ts t1 t2
  = map (fun t => 1 / (exp ((t2 - t1) / (t - t1) + (t2 - t1) / (t - t2)) + 1))
      ts.
Proof.
  intros Hts. unfold _planck_taper. apply map_ext_in. intros t Hin.
  rewrite Forall_forall in Hts. specialize (Hts t Hin). simpl in Hts.
  rewrite (heaviside_neg (t1 - t)), (heaviside_pos (t - t1)),
    (heaviside_pos (t2 - t)), (heaviside_neg (t - t2)) by lra.
  ring.
Qed.

(** X14. For window edges [t1 < t2], [_planck_taper] is 0 at every sample
    below [t1] and 1 at every sample above [t2]. *)
Theorem planck_taper_outside_the_transition (ts : list R) (t1 t2 : R) :
  t1 < t2 ->
  (Forall (fun t => t < t1) ts -> _planck_taper ts t1 t2 = zeros_like ts)
  /\ (Forall (fun t => t2 < t) ts -> _planck_taper ts t1 t2 = ones_like ts).
Proof.
  intros H12. split; intros Hts; unfold _planck_taper, zeros_like, ones_like;
    apply map_ext_in; intros t Hin;
    rewrite Forall_forall in Hts; specialize (Hts t Hin); simpl in Hts.
  - rewrite (heaviside_pos (t1 - t)), (heaviside_neg (t - t1)),
      (heaviside_neg (t - t2)) by lra.
    ring.
  - rewrite (heaviside_neg (t1 - t)), (heaviside_pos (t - t1)),
      (heaviside_neg (t2 - t)), (heaviside_pos (t - t2)) by lra.
    ring.
Qed.

(** X15. At samples strictly between the window edges [_planck_taper] is
    the transition formula [1 / (exp((t2-t1)/(t-t1) + (t2-t1)/(t-t2)) + 1)],
    a value strictly between 0 and 1. *)
Theorem planck_taper_inside_the_transition (ts : list R) (t1 t2 : R) :
  Forall (fun t => t1 < t < t2) ts ->
  _planck_taper ts t1 t2
  = map (fun t => 1 / (exp ((t2 - t1) / (t - t1) + (t2 - t1) / (t - t2)) + 1))
      ts
  /\ Forall (fun v => 0 < v < 1) (_planck_taper ts t1 t2).
Proof.
  intros Hts. rewrite (_planck_taper_in_transition ts t1 t2 Hts).
  split; [reflexivity |].
  apply Forall_map. apply Forall_impl with (2 := Hts). intros t _.
  pose proof (exp_pos ((t2 - t1) / (t - t1) + (t2 - t1) / (t - t2))) as He.
  set (e := exp _) in *.
  split.
  - apply Rdiv_lt_0_compat; lra.
  - apply Rmult_lt_reg_r with (e + 1); [lra |].
    unfold Rdiv. rewrite Rmult_assoc, Rinv_l by lra. lra.
Qed.

(** X16. On an increasing frequency grid that lies strictly between the
    window edges, the values of [_planck_taper] are increasing. *)
Theorem planck_taper_increasing (ts : list R) (t1 t2 : R) :
  Forall (fun t => t1 < t < t2) ts ->
  StronglySorted Rlt ts ->
  StronglySorted Rlt (_planck_taper ts t1 t2).
Proof.
  intros Hts Hs. rewrite (_planck_taper_in_transition ts t1 t2 Hts).
  induction Hs as [| t ts Hs IH Hall]; simpl; constructor.
  - apply IH. now inversion Hts.
  - inversion Hts as [| ? ? Ht Hrest]; subst.
    apply Forall_map.
    rewrite Forall_forall in Hall, Hrest |- *.
    intros t' Hin. specialize (Hall t' Hin). specialize (Hrest t' Hin).
    simpl in Hrest.
    apply planck_middle_increasing.
    apply planck_exponent_decreasing; lra.
Qed.

(** X17. The transition is symmetric about the middle of the window: the
    values at [t1 + s] and [t2 - s] add up to 1, and the value at the
    middle is [1/2]. *)
Theorem planck_taper_symmetric (t1 t2 s : R) :
  0 < s -> s < t2 - t1 ->
  (exists a b, _planck_taper [t1 + s; t2 - s] t1 t2 = [a; b] /\ a + b = 1)
  /\ _planck_taper [(t1 + t2) / 2] t1 t2 = [1 / 2].
Proof.
  intros Hs0 Hs1.
  assert (Hsym : forall u, 0 < u -> u < t2 - t1 ->
            1 / (exp ((t2 - t1) / (t1 + u - t1) + (t2 - t1) / (t1 + u - t2)) + 1)
            + 1 / (exp ((t2 - t1) / (t2 - u - t1)
                        + (t2 - t1) / (t2 - u - t2)) + 1) = 1).
  { intros u Hu0 Hu1.
    replace ((t2 - t1) / (t2 - u - t1) + (t2 - t1) / (t2 - u - t2))
      with (- ((t2 - t1) / (t1 + u - t1) + (t2 - t1) / (t1 + u - t2)))
      by (field; repeat split; lra).
    set (z := (t2 - t1) / (t1 + u - t1) + (t2 - t1) / (t1 + u - t2)).
    rewrite exp_Ropp. pose proof (exp_pos z) as He.
    field. split; lra. }
  split.
  - rewrite _planck_taper_in_transition
      by (repeat constructor; lra).
    simpl. eexists; eexists; split; [reflexivity |].
    now apply Hsym.
  - rewrite _planck_taper_in_transition
      by (repeat constructor; lra).
    simpl. f_equal.
    pose proof (Hsym ((t2 - t1) / 2) ltac:(lra) ltac:(lra)) as Hm.
    replace (t1 + (t2 - t1) / 2) with ((t1 + t2) / 2) in Hm by field.
    replace (t2 - (t2 - t1) / 2) with ((t1 + t2) / 2) in Hm by field.
    lra.
Qed.

(* ================================================================== *)
(** ** Further properties of the combination *)

Lemma Cmul_1_l (a : complex) : Cmul (RtoC 1) a = a.
Proof. destruct a; apply C_eq; simpl; ring. Qed.

Lemma Cabs_Cexp_imaginary (x : R) : Cabs (Cexp (Cmul Ci (RtoC x))) = 1.
Proof.
  unfold Cabs, Cexp; simpl.
  replace (0 * x - 1 * 0) with 0 by ring.
  replace (0 * 0 + 1 * x) with x by ring.
  rewrite exp_0.
  replace (1 * cos x * (1 * cos x) + 1 * sin x * (1 * sin x))
    with (Rsqr (sin x) + Rsqr (cos x)) by (unfold Rsqr; ring).
  rewrite sin2_cos2. apply sqrt_1.
Qed.

Lemma bcast2_mismatch {A B D : Type} (op : A -> B -> D) xs ys :
  length xs <> length ys -> length xs <> 1%nat -> length ys <> 1%nat ->
  bcast2 op xs ys = None.
Proof.
  intros Hne Hx Hy. unfold bcast2.
  destruct xs as [| x [| x' xs]], ys as [| y [| y' ys]];
    simpl in *; try congruence; try reflexivity.
  destruct (Nat.eqb (length xs) (length ys)) eqn:E; [| reflexivity].
  apply Nat.eqb_eq in E. congruence.
Qed.

Lemma get_tidal_amplitude_length (f : list R) (theta : Theta) (kappa dL : R) :
  length (get_tidal_amplitude f theta kappa dL) = length f.
Proof. unpack theta. unfold get_tidal_amplitude. apply length_map. Qed.

(** The chain of element-wise operations of the combination, sample by
    sample. *)
Lemma combination_chain (f : list R) :
  forall (A P : list R) (h : list complex),
    length A = length f -> length P = length f -> length h = length f ->
    map2 Cmul
      (map2 (fun a z => Cmul (RtoC a) z) (map (fun _ => 1) f)
         (map2 Cadd h
            (map2 (fun a e => Cmul (RtoC a) e) A
               (map (fun p => Cexp (Cmul Ci (Cneg p)))
                  (map2 Cdivr h (map Cabs h))))))
      (map (fun p => Cexp (Cmul Ci (RtoC (- p)))) P)
    = map2 (fun ap hk => strain_sample (fst ap) (snd ap) hk) (combine A P) h.
Proof.
  induction f as [| fk f IH]; intros [| a A] [| p P] [| hk h] HA HP Hh;
    simpl in HA, HP, Hh; try discriminate; try reflexivity.
  injection HA as HA. injection HP as HP. injection Hh as Hh.
  cbn [map map2 combine fst snd].
  rewrite (IH A P h HA HP Hh).
  f_equal. unfold strain_sample. now rewrite Cmul_1_l.
Qed.

Lemma _gen_NRTidalv2_closed_form
    (f : list R) (m1 m2 chi1 chi2 lambda1 lambda2 : R)
    (theta_extrinsic : ThetaExt) (h0_bbh : list complex) :
  length h0_bbh = length f ->
  let theta : Theta := (m1, m2, chi1, chi2, lambda1, lambda2) in
  let A_T := get_tidal_amplitude f theta (get_kappa theta)
               (ext0 theta_extrinsic) in
  let psi_T := get_tidal_phase (map (fun x => x * ((m1 + m2) * gt)) f) theta
                 (get_kappa theta) in
  _gen_NRTidalv2 f theta theta_extrinsic h0_bbh
  = Some (map2 (fun ap hk => strain_sample (fst ap) (snd ap) hk)
            (combine A_T psi_T) h0_bbh).
Proof.
  intros Hlen theta A_T psi_T.
  assert (LA : length A_T = length f)
    by (unfold A_T; apply get_tidal_amplitude_length).
  assert (LT : length psi_T = length f).
  { unfold psi_T. now rewrite get_tidal_phase_length, length_map. }
  unfold _gen_NRTidalv2. fold A_T.
  rewrite window_A_P_ones.
  unfold theta at 2.
  rewrite (combined_phase_tidal_only f m1 m2 chi1 chi2 lambda1 lambda2).
  fold theta. fold psi_T.
  rewrite bcast2_same_length by (now rewrite length_map). cbn [bind].
  set (psi_bbh := map2 Cdivr h0_bbh (map Cabs h0_bbh)).
  assert (Lpsi : length psi_bbh = length f).
  { unfold psi_bbh. rewrite map2_length; [exact Hlen | now rewrite length_map]. }
  rewrite bcast2_same_length by (rewrite length_map; congruence). cbn [bind].
  set (tidal := map2 _ A_T _).
  assert (Lt : length tidal = length f).
  { unfold tidal. rewrite map2_length; [exact LA |].
    rewrite length_map. congruence. }
  rewrite bcast2_same_length by congruence. cbn [bind].
  set (total := map2 Cadd h0_bbh tidal).
  assert (Ltot : length total = length f).
  { unfold total. rewrite map2_length; congruence. }
  unfold ones_like.
  rewrite bcast2_same_length by (rewrite length_map; congruence). cbn [bind].
  set (windowed := map2 _ (map _ f) total).
  assert (Lw : length windowed = length f).
  { unfold windowed. rewrite map2_length; rewrite length_map; congruence. }
  rewrite bcast2_same_length by (rewrite length_map; congruence).
  f_equal. unfold windowed, total, tidal, psi_bbh.
  now apply combination_chain.
Qed.

(** X18. [_gen_NRTidalv2] returns a strain with the length of the frequency
    grid when the baseline strain has that length, and it raises when the
    two lengths differ and neither is 1. *)
Theorem combination_shapes
    (f : list R) (theta : Theta) (theta_extrinsic : ThetaExt)
    (h0_bbh : list complex) :
  (length h0_bbh = length f ->
   exists h0, _gen_NRTidalv2 f theta theta_extrinsic h0_bbh = Some h0
              /\ length h0 = length f)
  /\ (length h0_bbh <> length f ->
      length f <> 1%nat -> length h0_bbh <> 1%nat ->
      _gen_NRTidalv2 f theta theta_extrinsic h0_bbh = None).
Proof.
  split; [apply _gen_NRTidalv2_returns |].
  intros Hne Hf Hh. unpack theta.
  unfold _gen_NRTidalv2.
  rewrite bcast2_same_length by (now rewrite length_map). cbn [bind].
  rewrite window_A_P_ones. cbn [bind].
  rewrite (combined_phase_tidal_only f m1 m2 chi1 chi2 lambda1 lambda2).
  cbn [bind].
  rewrite bcast2_mismatch; [reflexivity | | |].
  - rewrite get_tidal_amplitude_length, length_map, map2_length
      by (now rewrite length_map).
    congruence.
  - now rewrite get_tidal_amplitude_length.
  - rewrite length_map, map2_length by (now rewrite length_map).
    exact Hh.
Qed.


(** X20. The combined strain depends neither on the spins nor on the
    coalescence time and phase of the extrinsic parameters. *)
Theorem combination_ignores_spins_and_coalescence
    (f : list R) (m1 m2 chi1 chi2 lambda1 lambda2 dL tc phic : R)
    (chi1' chi2' tc' phic' : R) (h0_bbh : list complex) :
  _gen_NRTidalv2 f (m1, m2, chi1', chi2', lambda1, lambda2)
    (dL, tc', phic') h0_bbh
  = _gen_NRTidalv2 f (m1, m2, chi1, chi2, lambda1, lambda2)
      (dL, tc, phic) h0_bbh.
Proof.
  unfold _gen_NRTidalv2.
  rewrite !window_A_P_ones.
  rewrite (combined_phase_tidal_only f m1 m2 chi1' chi2' lambda1 lambda2).
  rewrite (combined_phase_tidal_only f m1 m2 chi1 chi2 lambda1 lambda2).
  reflexivity.
Qed.

(** X21. For a baseline strain aligned with the grid, the sample [k] of the
    combined strain is
    [(h_k + A_T_k exp(-1j h_k/|h_k|)) exp(-1j psi_T_k)], with the tidal
    amplitude at [f] and the tidal phase at [f * M_s]; its modulus is that
    of [h_k + A_T_k exp(-1j h_k/|h_k|)], the tidal phase being a pure
    rotation. *)
Theorem combination_sample_by_sample
    (f : list R) (m1 m2 chi1 chi2 lambda1 lambda2 : R)
    (theta_extrinsic : ThetaExt) (h0_bbh : list complex) :
  length h0_bbh = length f ->
  let theta : Theta := (m1, m2, chi1, chi2, lambda1, lambda2) in
  let A_T := get_tidal_amplitude f theta (get_kappa theta)
               (ext0 theta_extrinsic) in
  let psi_T := get_tidal_phase (map (fun x => x * ((m1 + m2) * gt)) f) theta
                 (get_kappa theta) in
  _gen_NRTidalv2 f theta theta_extrinsic h0_bbh
  = Some (map2 (fun ap hk => strain_sample (fst ap) (snd ap) hk)
            (combine A_T psi_T) h0_bbh)
  /\ forall a p hk,
       Cabs (strain_sample a p hk)
       = Cabs (Cadd hk (Cmul (RtoC a)
                          (Cexp (Cmul Ci (Cneg (Cdivr hk (Cabs hk))))))).
Proof.
  intros Hlen theta A_T psi_T.
  split; [now apply _gen_NRTidalv2_closed_form |].
  intros a p hk. unfold strain_sample.
  rewrite Cabs_mul, Cabs_Cexp_imaginary. ring.
Qed.

(* ================================================================== *)
(** ** Further properties of the entry points *)

Lemma gen_NRTidalv2_recognized
    (f : list R) (params : Params) (f_ref m1 m2 : R) :
  Mc_eta_to_ms (par_Mchirp params, par_eta params) = (m1, m2) ->
  gen_NRTidalv2 f params f_ref "IMRPhenomD"
  = _gen_NRTidalv2 f
      (m1, m2, par_chi1 params, par_chi2 params,
       par_lambda1 params, par_lambda2 params)
      (par_D params, par_tc params, par_phic params)
      (gen_IMRPhenomD f
         [par_Mchirp params; par_eta params; par_chi1 params;
          par_chi2 params; par_D params; par_tc params; par_phic params]
         f_ref).
Proof.
  intros HM. unfold gen_NRTidalv2. rewrite HM.
  rewrite String.eqb_refl. reflexivity.
Qed.

(** X22. With the recognised approximant, [gen_NRTidalv2] hands the
    baseline generator the parameters without the two deformabilities,
    [Mchirp, eta, chi1, chi2, D, tc, phic], and combines its strain with the
    tidal terms for the masses given by [Mc_eta_to_ms]; when the generator
    returns one sample per frequency, so does [gen_NRTidalv2]. *)
Theorem gen_NRTidalv2_with_baseline
    (f : list R) (params : Params) (f_ref m1 m2 : R) :
  let bbh_params :=
    [par_Mchirp params; par_eta params; par_chi1 params; par_chi2 params;
     par_D params; par_tc params; par_phic params] in
  Mc_eta_to_ms (par_Mchirp params, par_eta params) = (m1, m2) ->
  length (gen_IMRPhenomD f bbh_params f_ref) = length f ->
  gen_NRTidalv2 f params f_ref "IMRPhenomD"
  = _gen_NRTidalv2 f
      (m1, m2, par_chi1 params, par_chi2 params,
       par_lambda1 params, par_lambda2 params)
      (par_D params, par_tc params, par_phic params)
      (gen_IMRPhenomD f bbh_params f_ref)
  /\ exists h0, gen_NRTidalv2 f params f_ref "IMRPhenomD" = Some h0
                /\ length h0 = length f.
Proof.
  intros bbh_params HM Hlen.
  rewrite (gen_NRTidalv2_recognized f params f_ref m1 m2 HM).
  split; [reflexivity |].
  now apply _gen_NRTidalv2_returns.
Qed.


(** X24. With an unrecognised approximant [gen_NRTidalv2_hphc] returns two
    polarisations that are zero at every sample and have the length of the
    frequency grid, whatever the inclination. *)
Theorem gen_NRTidalv2_hphc_unrecognized
    (f : list R) (params : ParamsHphc) (f_ref : R) (IMRphenom : string) :
  IMRphenom <> "IMRPhenomD"%string ->
  gen_NRTidalv2_hphc f params f_ref IMRphenom
  = Some (map (fun _ => C0) f, map (fun _ => C0) f).
Proof.
  intros Hname. unfold gen_NRTidalv2_hphc, gen_NRTidalv2.
  destruct (Mc_eta_to_ms _) as [m1 m2].
  apply String.eqb_neq in Hname. rewrite Hname. cbn [bind].
  unfold polarizations, zeros_like. rewrite !map_map.
  f_equal. f_equal; apply map_ext; intros _; apply C_eq; simpl; ring.
Qed.

(** X25. For an edge-on binary ([iota = PI/2]) the plus polarisation is
    half the combined strain and the cross polarisation is zero at every
    sample. *)
Theorem polarizations_edge_on (h0 : list complex) :
  polarizations h0 (PI / 2)
  = (map (fun h => Cmul h (RtoC (1 / 2))) h0, map (fun _ => C0) h0).
Proof.
  unfold polarizations. rewrite cos_PI2. f_equal.
  - apply map_ext. intros h. f_equal. f_equal. field.
  - apply map_ext. intros h. apply C_eq; simpl; ring.
Qed.

(** X26. The plus polarisation is the same for the inclinations [iota],
    [- iota] and [PI - iota]; the cross polarisation is the same for [iota]
    and [- iota] and changes sign between [iota] and [PI - iota]. *)
Theorem polarizations_inclination_symmetry (h0 : list complex) (iota : R) :
  polarizations h0 (- iota) = polarizations h0 iota
  /\ fst (polarizations h0 (PI - iota)) = fst (polarizations h0 iota)
  /\ snd (polarizations h0 (PI - iota))
     = map Cneg (snd (polarizations h0 iota)).
Proof.
  unfold polarizations; cbn [fst snd].
  assert (Hc : cos (PI - iota) = - cos iota).
  { unfold Rminus. rewrite cos_plus, cos_PI, sin_PI, cos_neg. ring. }
  rewrite cos_neg, Hc. repeat split.
  - apply map_ext. intros h. f_equal. f_equal. ring.
  - rewrite map_map. apply map_ext. intros h. apply C_eq; simpl; ring.
Qed.

End NRTidalv2.

(* ================================================================== *)
(** ** Instances *)

(** The end-to-end binary of the specification at 100 Hz and 40 Mpc, with
    a coupling of 75. *)
Lemma tidal_amplitude_converts_the_mass_twice_witness :
  (0 < gt_SI <= 1e-4 /\ 0 < m_per_Mpc_SI /\ 0 < C_SI /\ 0 < 40 /\ 75 <> 0
   /\ 0 < 1.4 + 1.35 /\ 0 < 100 /\ PI * ((1.4 + 1.35) * gt_SI) * 100 <= 1)
  /\ get_tidal_amplitude gt_SI m_per_Mpc_SI C_SI [100]
       (1.4, 1.35, 0, 0, 400, 400) 75 40
     <> spec_tidal_amplitude gt_SI m_per_Mpc_SI C_SI [100]
          (1.4, 1.35, 0, 0, 400, 400) 75 40.
Proof.
  assert (Hpi : PI * ((1.4 + 1.35) * gt_SI) * 100 <= 1).
  { pose proof PI_4. pose proof PI_RGT_0. unfold gt_SI. nra. }
  assert (Hgt : 0 < gt_SI <= 1e-4) by (unfold gt_SI; lra).
  assert (Hm : 0 < m_per_Mpc_SI) by (unfold m_per_Mpc_SI; lra).
  assert (Hc : 0 < C_SI) by (unfold C_SI; lra).
  split.
  - repeat split; try lra; tauto.
  - apply (tidal_amplitude_converts_the_mass_twice gt_SI m_per_Mpc_SI C_SI
             1.4 1.35 0 0 400 400 75 40 100); try assumption; lra.
Defined.

Lemma zero_deformability_no_tidal_terms_witness :
  (0 < gt_SI /\ 0 < m_per_Mpc_SI /\ 0 < C_SI /\ 0 < 1.4 /\ 0 < 1.35 /\ 0 < 40
   /\ Forall (fun x => 0 < x) [20; 100; 1024])
  /\ get_kappa gt_SI (1.4, 1.35, 0, 0, 0, 0) = 0
  /\ get_tidal_phase gt_SI [20; 100; 1024] (1.4, 1.35, 0, 0, 0, 0)
       (get_kappa gt_SI (1.4, 1.35, 0, 0, 0, 0)) = [0; 0; 0]
  /\ get_tidal_amplitude gt_SI m_per_Mpc_SI C_SI [20; 100; 1024]
       (1.4, 1.35, 0, 0, 0, 0)
       (get_kappa gt_SI (1.4, 1.35, 0, 0, 0, 0)) 40 = [0; 0; 0].
Proof.
  assert (Hgt : 0 < gt_SI) by (unfold gt_SI; lra).
  assert (Hm : 0 < m_per_Mpc_SI) by (unfold m_per_Mpc_SI; lra).
  assert (Hc : 0 < C_SI) by (unfold C_SI; lra).
  assert (Hf : Forall (fun x => 0 < x) [20; 100; 1024]).
  { repeat constructor; lra. }
  split.
  - repeat split; try assumption; lra.
  - destruct (zero_deformability_no_tidal_terms gt_SI m_per_Mpc_SI C_SI
                1.4 1.35 0 0 40 [20; 100; 1024])
      as (Hk & Hp & Ha & _); try assumption; try lra.
    split; [exact Hk | split; [exact Hp | exact Ha]].
Defined.

Lemma unrecognized_approximant_gives_zeros_witness :
  "IMRPhenomP"%string <> "IMRPhenomD"%string
  /\ gen_NRTidalv2 gt_SI m_per_Mpc_SI C_SI Mc_eta_to_ms_stub
       gen_IMRPhenomD_stub [20; 100]
       (mkParams 1.2 0.25 0 0 400 400 40 0 0) 20 "IMRPhenomP"
     = Some [C0; C0].
Proof.
  assert (Hne : "IMRPhenomP"%string <> "IMRPhenomD"%string) by discriminate.
  split; [exact Hne |].
  destruct (unrecognized_approximant_gives_zeros gt_SI m_per_Mpc_SI C_SI
              Mc_eta_to_ms_stub gen_IMRPhenomD_stub [20; 100]
              (mkParams 1.2 0.25 0 0 400 400 40 0 0) 20 "IMRPhenomP" Hne)
    as (h0 & Hret & Hval & _).
  rewrite Hret, Hval. reflexivity.
Defined.

Lemma quadparam_polynomial_branch_witness :
  0 <= 1 / 2 <= 1
  /\ log_quadparam (1 / 2)
     = 1 + 1 / 2 * (0.427688866723244
           + 1 / 2 * (-0.324336526985068 + 1 / 2 * 0.1107439432180572)).
Proof.
  assert (H : 0 <= 1 / 2 <= 1) by lra.
  split; [exact H |].
  exact (proj1 (proj1 quadparam_polynomial_branch (1 / 2) H)).
Defined.

Lemma merger_frequency_decreasing_in_kappa_witness :
  (0 < gt_SI /\ 0 < 1.4 /\ 0 < 1.35 /\ 0 <= 0 /\ 0 < 75)
  /\ Momega_merger gt_SI (1.4, 1.35, 0, 0, 400, 400) 75
     < Momega_merger gt_SI (1.4, 1.35, 0, 0, 400, 400) 0.
Proof.
  assert (Hgt : 0 < gt_SI) by (unfold gt_SI; lra).
  split.
  - repeat split; try assumption; lra.
  - apply (merger_frequency_decreasing_in_kappa gt_SI
             1.4 1.35 0 0 400 400 0 75); try assumption; lra.
Defined.

Lemma cross_modulus_le_plus_modulus_witness :
  (0 < length [C1; Ci])%nat
  /\ Cabs (nth 0 (snd (polarizations [C1; Ci] 1)) C0)
     <= Cabs (nth 0 (fst (polarizations [C1; Ci] 1)) C0).
Proof.
  assert (H : (0 < length [C1; Ci])%nat) by (simpl; lia).
  split; [exact H |].
  destruct (cross_modulus_le_plus_modulus [C1; Ci] 1) as (_ & _ & Hk).
  exact (proj1 (Hk 0%nat H)).
Defined.

(** C9, as stated, fails: at inclination 0 a strain of 1 has the cross
    polarisation [-1j], not 0.  The same is seen through
    [gen_NRTidalv2_hphc], for a baseline strain of 1 at 100 Hz and zero
    deformabilities. *)
Lemma polarizations_hc_not_zero_at_zero_inclination :
  polarizations [C1] 0 = ([C1], [mkC 0 (-1)])
  /\ snd (polarizations [C1] 0) <> [C0]
  /\ gen_NRTidalv2_hphc gt_SI m_per_Mpc_SI C_SI Mc_eta_to_ms_stub
       gen_IMRPhenomD_stub [100]
       (mkParamsHphc (mkParams 1.1977 0.2499 0 0 0 0 40 0 0) 0) 20
       "IMRPhenomD"
     = Some ([C1], [mkC 0 (-1)]).
Proof.
  assert (H : polarizations [C1] 0 = ([C1], [mkC 0 (-1)])).
  { unfold polarizations; simpl. rewrite cos_0. f_equal.
    - f_equal. apply C_eq; simpl; lra.
    - f_equal. apply C_eq; simpl; lra. }
  split; [exact H | split].
  - rewrite H; simpl. intros Heq.
    apply (f_equal (fun l => Im (nth 0 l C0))) in Heq. simpl in Heq. lra.
  - unfold gen_NRTidalv2_hphc, gen_NRTidalv2.
    cbn [par_base par_inclination par_Mchirp par_eta par_chi1 par_chi2
         par_lambda1 par_lambda2 par_D par_tc par_phic
         Mc_eta_to_ms_stub gen_IMRPhenomD_stub map].
    rewrite String.eqb_refl.
    rewrite _gen_NRTidalv2_zero_deformability.
    + cbn [bind]. now rewrite H.
    + reflexivity.
    + constructor; [| constructor].
      intros Heq. apply (f_equal Re) in Heq. simpl in Heq. lra.
Qed.

(* ================================================================== *)
(** ** Instances of the further properties *)

Lemma gt_SI_pos : 0 < gt_SI.
Proof. unfold gt_SI; lra. Qed.

Lemma m_per_Mpc_SI_pos : 0 < m_per_Mpc_SI.
Proof. unfold m_per_Mpc_SI; lra. Qed.

Lemma C_SI_pos : 0 < C_SI.
Proof. unfold C_SI; lra. Qed.

Lemma kappa_free_of_units_and_spins_witness :
  (gt_SI <> 0 /\ 0 < 1.4 /\ 0 < 1.35)
  /\ get_kappa gt_SI (1.4, 1.35, 0.1, -0.2, 400, 300)
     = 3 / 13 * ((1 + 12 * 1.35 / 1.4) * (1.4 / (1.4 + 1.35)) ^ 5 * 400
                 + (1 + 12 * 1.4 / 1.35) * (1.35 / (1.4 + 1.35)) ^ 5 * 300).
Proof.
  pose proof gt_SI_pos as Hgt.
  assert (Hne : gt_SI <> 0) by lra.
  split; [repeat split; try lra; exact Hne |].
  apply (kappa_free_of_units_and_spins gt_SI 1.4 1.35 0.1 (-0.2) 400 300);
    try lra; exact Hne.
Defined.

Lemma kappa_nonnegative_witness :
  (gt_SI <> 0 /\ 0 < 1.4 /\ 0 < 1.35 /\ 0 <= 400 /\ 0 <= 0)
  /\ 0 < get_kappa gt_SI (1.4, 1.35, 0, 0, 400, 0).
Proof.
  pose proof gt_SI_pos as Hgt.
  assert (Hne : gt_SI <> 0) by lra.
  split; [repeat split; try lra; exact Hne |].
  assert (Hl : 0 < 400 \/ 0 < 0) by (left; lra).
  exact (proj2 (kappa_nonnegative gt_SI 1.4 1.35 0 0 400 0 Hne
                  ltac:(lra) ltac:(lra) ltac:(lra) ltac:(lra)) Hl).
Defined.

Lemma kappa_equal_masses_witness :
  (gt_SI <> 0 /\ 0 < 1.4)
  /\ get_kappa gt_SI (1.4, 1.4, 0, 0, 400, 300) = 3 / 32 * (400 + 300).
Proof.
  pose proof gt_SI_pos as Hgt.
  assert (Hne : gt_SI <> 0) by lra.
  split; [split; [exact Hne | lra] |].
  apply (kappa_equal_masses gt_SI 1.4 0 0 400 300); [exact Hne | lra].
Defined.


Lemma tidal_amplitude_negative_witness :
  (0 < gt_SI /\ 0 < m_per_Mpc_SI /\ 0 < C_SI /\ 0 < 1.4 + 1.35 /\ 0 < 40
   /\ 0 < 75 /\ Forall (fun x => 0 < x) [20; 100])
  /\ Forall (fun a => a < 0)
       (get_tidal_amplitude gt_SI m_per_Mpc_SI C_SI [20; 100]
          (1.4, 1.35, 0, 0, 400, 400) 75 40).
Proof.
  pose proof gt_SI_pos. pose proof m_per_Mpc_SI_pos. pose proof C_SI_pos.
  assert (Hf : Forall (fun x => 0 < x) [20; 100]) by (repeat constructor; lra).
  split; [repeat split; try assumption; lra |].
  apply (tidal_amplitude_negative gt_SI m_per_Mpc_SI C_SI [20; 100]
           1.4 1.35 0 0 400 400 75 40); try assumption; lra.
Defined.

Lemma tidal_amplitude_distance_and_total_mass_witness :
  (0 < m_per_Mpc_SI /\ 0 < C_SI /\ 0 < 40 /\ 0 < 2 /\ 1.4 + 1.35 = 2 + 0.75)
  /\ get_tidal_amplitude gt_SI m_per_Mpc_SI C_SI [20; 100]
       (2, 0.75, 0.3, 0, 0, 90) 75 40
     = get_tidal_amplitude gt_SI m_per_Mpc_SI C_SI [20; 100]
         (1.4, 1.35, 0, 0, 400, 400) 75 40.
Proof.
  pose proof m_per_Mpc_SI_pos. pose proof C_SI_pos.
  split; [repeat split; try assumption; lra |].
  apply (tidal_amplitude_distance_and_total_mass gt_SI m_per_Mpc_SI C_SI
           [20; 100] 1.4 1.35 0 0 400 400 2 0.75 0.3 0 0 90 75 40 2);
    try assumption; lra.
Defined.

Lemma merger_frequency_bounds_witness :
  (0 < gt_SI /\ 0 < 1.4 /\ 0 < 1.35 /\ 0 <= 75)
  /\ Momega_merger gt_SI (1.4, 1.35, 0, 0, 400, 400) 75
     <= 0.3586 * sqrt (1.35 / 1.4).
Proof.
  pose proof gt_SI_pos.
  split; [repeat split; try assumption; lra |].
  apply (merger_frequency_bounds gt_SI 1.4 1.35 0 0 400 400 75);
    try assumption; lra.
Defined.

Lemma merger_frequency_exchange_witness :
  (0 < gt_SI /\ 0 < 1.4 /\ 0 < 1.35 /\ 0 <= 75)
  /\ Momega_merger gt_SI (1.35, 1.4, 0, 0, 400, 400) 75
     <> Momega_merger gt_SI (1.4, 1.35, 0, 0, 400, 400) 75.
Proof.
  pose proof gt_SI_pos.
  split; [repeat split; try assumption; lra |].
  intros Heq.
  apply (merger_frequency_exchange gt_SI 1.4 1.35 0 0 400 400 75) in Heq;
    try assumption; lra.
Defined.

Lemma merger_frequency_mass_scaling_witness :
  (0 < gt_SI /\ 0 < 1.4 /\ 0 < 1.35 /\ 0 < 2)
  /\ Momega_merger gt_SI (2 * 1.4, 2 * 1.35, 0, 0, 400, 400) 75
     = Momega_merger gt_SI (1.4, 1.35, 0, 0, 400, 400) 75.
Proof.
  pose proof gt_SI_pos.
  split; [repeat split; try assumption; lra |].
  apply (merger_frequency_mass_scaling gt_SI 1.4 1.35 0 0 400 400 75 2);
    try assumption; lra.
Defined.

Lemma merger_frequency_default_kappa_witness :
  (0 < gt_SI /\ 0 < 1.4 /\ 0 < 1.35)
  /\ _get_merger_frequency gt_SI (1.4, 1.35, 0, 0, 0, 0) None
     = 0.3586 * sqrt (1.35 / 1.4) / ((1.4 + 1.35) * gt_SI) / (2 * PI).
Proof.
  pose proof gt_SI_pos.
  split; [repeat split; try assumption; lra |].
  apply (merger_frequency_default_kappa gt_SI 1.4 1.35 0 0 400 400);
    try assumption; lra.
Defined.

Lemma quadparam_universal_branch_witness :
  (1 < 2 /\ 2 <= exp 1)
  /\ fst (_compute_quadparam_octparam 2)
     < fst (_compute_quadparam_octparam 1).
Proof.
  assert (H1 : 1 < 2) by lra.
  assert (He : 2 <= exp 1).
  { pose proof (exp_ineq1 1 ltac:(lra)). lra. }
  split; [split; assumption |].
  apply (proj2 (quadparam_universal_branch 2 H1) He).
Defined.

Lemma planck_taper_outside_the_transition_witness :
  (100 < 120 /\ Forall (fun t => t < 100) [20; 50]
   /\ Forall (fun t => 120 < t) [150; 400])
  /\ _planck_taper [20; 50] 100 120 = [0; 0]
  /\ _planck_taper [150; 400] 100 120 = [1; 1].
Proof.
  assert (H12 : 100 < 120) by lra.
  assert (Hb : Forall (fun t => t < 100) [20; 50])
    by (repeat constructor; lra).
  assert (Ha : Forall (fun t => 120 < t) [150; 400])
    by (repeat constructor; lra).
  split; [repeat split; assumption |].
  destruct (planck_taper_outside_the_transition [20; 50] 100 120 H12)
    as [Hbelow _].
  destruct (planck_taper_outside_the_transition [150; 400] 100 120 H12)
    as [_ Habove].
  split; [exact (Hbelow Hb) | exact (Habove Ha)].
Defined.

Lemma planck_taper_inside_the_transition_witness :
  Forall (fun t => 100 < t < 120) [105; 110]
  /\ Forall (fun v => 0 < v < 1) (_planck_taper [105; 110] 100 120).
Proof.
  assert (Hts : Forall (fun t => 100 < t < 120) [105; 110])
    by (repeat constructor; lra).
  split; [exact Hts |].
  exact (proj2 (planck_taper_inside_the_transition [105; 110] 100 120 Hts)).
Defined.

Lemma planck_taper_increasing_witness :
  (Forall (fun t => 100 < t < 120) [105; 110; 115]
   /\ StronglySorted Rlt [105; 110; 115])
  /\ StronglySorted Rlt (_planck_taper [105; 110; 115] 100 120).
Proof.
  assert (Hts : Forall (fun t => 100 < t < 120) [105; 110; 115])
    by (repeat constructor; lra).
  assert (Hs : StronglySorted Rlt [105; 110; 115])
    by (repeat constructor; lra).
  split; [split; assumption |].
  exact (planck_taper_increasing [105; 110; 115] 100 120 Hts Hs).
Defined.

Lemma planck_taper_symmetric_witness :
  (0 < 5 /\ 5 < 120 - 100)
  /\ _planck_taper [(100 + 120) / 2] 100 120 = [1 / 2].
Proof.
  assert (H0 : 0 < 5) by lra.
  assert (H1 : 5 < 120 - 100) by lra.
  split; [split; assumption |].
  exact (proj2 (planck_taper_symmetric 100 120 5 H0 H1)).
Defined.

Lemma combination_shapes_witness :
  length [C1; Ci] = length [20; 100]
  /\ exists h0,
       _gen_NRTidalv2 gt_SI m_per_Mpc_SI C_SI [20; 100]
         (1.4, 1.35, 0, 0, 400, 400) (40, 0, 0) [C1; Ci] = Some h0
       /\ length h0 = length [20; 100].
Proof.
  assert (Hlen : length [C1; Ci] = length [20; 100]) by reflexivity.
  split; [exact Hlen |].
  exact (proj1 (combination_shapes gt_SI m_per_Mpc_SI C_SI [20; 100]
                  (1.4, 1.35, 0, 0, 400, 400) (40, 0, 0) [C1; Ci]) Hlen).
Defined.




Lemma combination_sample_by_sample_witness :
  length [C1; Ci] = length [20; 100]
  /\ _gen_NRTidalv2 gt_SI m_per_Mpc_SI C_SI [20; 100]
       (1.4, 1.35, 0, 0, 400, 400) (40, 0, 0) [C1; Ci]
     = Some (map2 (fun ap hk => strain_sample (fst ap) (snd ap) hk)
               (combine
                  (get_tidal_amplitude gt_SI m_per_Mpc_SI C_SI [20; 100]
                     (1.4, 1.35, 0, 0, 400, 400)
                     (get_kappa gt_SI (1.4, 1.35, 0, 0, 400, 400)) 40)
                  (get_tidal_phase gt_SI
                     (map (fun x => x * ((1.4 + 1.35) * gt_SI)) [20; 100])
                     (1.4, 1.35, 0, 0, 400, 400)
                     (get_kappa gt_SI (1.4, 1.35, 0, 0, 400, 400))))
               [C1; Ci]).
Proof.
  assert (Hlen : length [C1; Ci] = length [20; 100]) by reflexivity.
  split; [exact Hlen |].
  exact (proj1 (combination_sample_by_sample gt_SI m_per_Mpc_SI C_SI
                  [20; 100] 1.4 1.35 0 0 400 400 (40, 0, 0) [C1; Ci] Hlen)).
Defined.

Lemma gen_NRTidalv2_with_baseline_witness :
  (Mc_eta_to_ms_stub (1.1977, 0.2499) = (1.4, 1.35)
   /\ length (gen_IMRPhenomD_stub [20; 100]
                [1.1977; 0.2499; 0; 0; 40; 0; 0] 20) = length [20; 100])
  /\ exists h0,
       gen_NRTidalv2 gt_SI m_per_Mpc_SI C_SI Mc_eta_to_ms_stub
         gen_IMRPhenomD_stub [20; 100]
         (mkParams 1.1977 0.2499 0 0 400 400 40 0 0) 20 "IMRPhenomD"
       = Some h0
       /\ length h0 = length [20; 100].
Proof.
  assert (HM : Mc_eta_to_ms_stub (1.1977, 0.2499) = (1.4, 1.35))
    by reflexivity.
  assert (Hlen : length (gen_IMRPhenomD_stub [20; 100]
                           [1.1977; 0.2499; 0; 0; 40; 0; 0] 20)
                 = length [20; 100]) by reflexivity.
  split; [split; assumption |].
  exact (proj2 (gen_NRTidalv2_with_baseline gt_SI m_per_Mpc_SI C_SI
                  Mc_eta_to_ms_stub gen_IMRPhenomD_stub [20; 100]
                  (mkParams 1.1977 0.2499 0 0 400 400 40 0 0) 20 1.4 1.35
                  HM Hlen)).
Defined.


Lemma gen_NRTidalv2_hphc_unrecognized_witness :
  "IMRPhenomP"%string <> "IMRPhenomD"%string
  /\ gen_NRTidalv2_hphc gt_SI m_per_Mpc_SI C_SI Mc_eta_to_ms_stub
       gen_IMRPhenomD_stub [20; 100]
       (mkParamsHphc (mkParams 1.1977 0.2499 0 0 400 400 40 0 0) 1) 20
       "IMRPhenomP"
     = Some ([C0; C0], [C0; C0]).
Proof.
  assert (Hne : "IMRPhenomP"%string <> "IMRPhenomD"%string) by discriminate.
  split; [exact Hne |].
  exact (gen_NRTidalv2_hphc_unrecognized gt_SI m_per_Mpc_SI C_SI
           Mc_eta_to_ms_stub gen_IMRPhenomD_stub [20; 100]
           (mkParamsHphc (mkParams 1.1977 0.2499 0 0 400 400 40 0 0) 1) 20
           "IMRPhenomP" Hne).
Defined.
